(** * ghz runner: the Requester (runner/requester.go)

    A shallow embedding of the run orchestrator: the connection pool
    ([openClientConns], [closeClientConns], [newClientConn]), the
    construction step [newRequester], the constant-concurrency worker pool
    [runConstConcurrencyWorkers] and the event loop of [Run].

    Conventions.
    - A Go [int] is a [Z]; where the source multiplies, the 64-bit
      wrap-around is written out ([wrap64]).
    - A Go slice that the source compares with [nil] is a [Slice]
      ([None] is the nil slice).
    - A Go [error] is an [option string] ([None] is the nil error); a
      function returning [(T, error)] returns a [goresult T].
    - A run-time panic is the [Panic] outcome of the monad [M].
    - The mutex [b.lock] only brackets the bodies of the two pool
      operations and the log calls have no effect on the Requester; neither
      is represented. *)

From Stdlib Require Import ZArith Lia String Ascii List DecimalString DecimalPos DecimalZ.
From stdpp Require Import base option list gmap strings.

Local Open Scope Z_scope.

(** ** Go values *)

Definition error := option string.

Inductive goresult (A : Type) : Type :=
| Val (a : A)
| Fail (e : string).
Arguments Val {A} a.
Arguments Fail {A} e.

Definition Slice (A : Type) := option (list A).

Definition slen {A} (s : Slice A) : Z :=
  match s with
  | None => 0
  | Some l => Z.of_nat (length l)
  end.

Definition selems {A} (s : Slice A) : list A :=
  match s with
  | None => []
  | Some l => l
  end.

Definition sappend {A} (s : Slice A) (x : A) : Slice A := Some (selems s ++ [x]).

Definition wrap64 (z : Z) : Z := (z + 2 ^ 63) mod 2 ^ 64 - 2 ^ 63.

(** Max size of the buffer of result channel. *)
Definition maxResult : Z := 1000000.

Definition min (a b : Z) : Z := if a <? b then a else b.

Definition MaxInt32 : Z := 2147483647.

(** ** Configuration *)

(** Modelled from the spec: the strategy and schedule selectors and their
    constants [StrategyConcurrency] and [ScheduleConst] are declared outside
    requester.go; [Run] only tests for that one pair, every other value is
    kept as its name. *)
Inductive LoadStrategy :=
| StrategyConcurrency
| StrategyOther (s : string).

Inductive LoadSchedule :=
| ScheduleConst
| ScheduleOther (s : string).

Global Instance LoadStrategy_eq_dec : EqDecision LoadStrategy.
Proof. solve_decision. Defined.
Global Instance LoadSchedule_eq_dec : EqDecision LoadSchedule.
Proof. solve_decision. Defined.

Record RunConfig := {
  call : string;
  host : string;
  proto : string;
  importPaths : list string;
  protoset : string;
  n : Z;
  c : Z;
  nConns : Z;
  loadStrategy : LoadStrategy;
  loadSchedule : LoadSchedule;
  name : string;
  zstop : string;
  binary : bool;
  data : string;
  rmd : list (string * string);
  insecure : bool;
  creds : string;
  authority : string;
  dialTimeout : Z;
  keepaliveTime : Z
}.

(** ** Connections, taps and the network *)

Inductive DialOption :=
| WithInsecure
| WithTransportCredentials (cr : string)
| WithAuthority (a : string)
| WithKeepaliveParams (time timeout : Z)
| WithStatsHandler (id : nat)
| WithDefaultCallOptions (maxRecv maxSend : Z).

(** A dialed connection: [conn_id] is the number of the dial attempt that
    produced it. *)
Record ClientConn := {
  conn_id : nat;
  conn_opts : list DialOption
}.

Record statsHandler := {
  id : nat;
  ignore : bool
}.

Definition Ignore (val : bool) (h : statsHandler) : statsHandler :=
  {| id := id h; ignore := val |}.

Record Stub := { stub_conn : ClientConn }.

Definition NewStub (cc : ClientConn) : Stub := {| stub_conn := cc |}.

Record MethodDescriptor := {
  mtd_name : string;
  IsClientStreaming : bool
}.

(** What the process does to the network, in program order. *)
Inductive NetEvent :=
| Dialed (k : nat) (opts : list DialOption)
| DialFailed (k : nat) (opts : list DialOption)
| Closed (k : nat).

(** The network: [dialResult k] is what the [k]-th call of
    [grpc.DialContext] answers, [dials] counts the calls made so far. *)
Record World := {
  dialResult : nat → error;
  dials : nat;
  events : list NetEvent
}.

(** ** The Requester *)

Record Requester := {
  conns : Slice ClientConn;
  stubs : list Stub;
  handlers : list statsHandler;
  mtd : option MethodDescriptor;
  config : RunConfig;
  results_cap : Z;
  reqCounter : Z;
  arrayJSONData : Slice string
}.

Record St := {
  b : Requester;
  world : World
}.

(** ** A state monad with panics *)

Inductive outcome (A : Type) : Type :=
| Returns (a : A) (s : St)
| Panic (msg : string).
Arguments Returns {A} a s.
Arguments Panic {A} msg.

Definition M (A : Type) : Type := St → outcome A.

Global Instance M_ret : MRet M := λ A a s, Returns a s.
Global Instance M_bind : MBind M := λ A B f m s,
  match m s with
  | Returns a s' => f a s'
  | Panic msg => Panic msg
  end.

Definition get : M St := λ s, Returns s s.
Definition put (s : St) : M unit := λ _, Returns () s.
Definition panic {A} (msg : string) : M A := λ _, Panic msg.

Definition set_conns (cs : Slice ClientConn) (r : Requester) : Requester :=
  {| conns := cs; stubs := stubs r; handlers := handlers r; mtd := mtd r;
     config := config r; results_cap := results_cap r;
     reqCounter := reqCounter r; arrayJSONData := arrayJSONData r |}.

Definition set_stubs (ss : list Stub) (r : Requester) : Requester :=
  {| conns := conns r; stubs := ss; handlers := handlers r; mtd := mtd r;
     config := config r; results_cap := results_cap r;
     reqCounter := reqCounter r; arrayJSONData := arrayJSONData r |}.

Definition set_handlers (hs : list statsHandler) (r : Requester) : Requester :=
  {| conns := conns r; stubs := stubs r; handlers := hs; mtd := mtd r;
     config := config r; results_cap := results_cap r;
     reqCounter := reqCounter r; arrayJSONData := arrayJSONData r |}.

Definition set_mtd (m : option MethodDescriptor) (r : Requester) : Requester :=
  {| conns := conns r; stubs := stubs r; handlers := handlers r; mtd := m;
     config := config r; results_cap := results_cap r;
     reqCounter := reqCounter r; arrayJSONData := arrayJSONData r |}.

Definition set_arrayJSONData (d : Slice string) (r : Requester) : Requester :=
  {| conns := conns r; stubs := stubs r; handlers := handlers r; mtd := mtd r;
     config := config r; results_cap := results_cap r;
     reqCounter := reqCounter r; arrayJSONData := d |}.

Definition modify_b (f : Requester → Requester) : M unit :=
  λ s, Returns () {| b := f (b s); world := world s |}.

(** [grpc.DialContext]: the network answers the next dial. *)
Definition DialContext (opts : list DialOption) : M (goresult ClientConn) :=
  λ s,
    let w := world s in
    let k := dials w in
    match dialResult w k with
    | None =>
        Returns (Val {| conn_id := k; conn_opts := opts |})
          {| b := b s;
             world := {| dialResult := dialResult w; dials := S k;
                         events := events w ++ [Dialed k opts] |} |}
    | Some e =>
        Returns (Fail e)
          {| b := b s;
             world := {| dialResult := dialResult w; dials := S k;
                         events := events w ++ [DialFailed k opts] |} |}
    end.

(** [cc.Close()]; its error is dropped by every caller. *)
Definition Close (cc : ClientConn) : M unit :=
  λ s,
    let w := world s in
    Returns ()
      {| b := b s;
         world := {| dialResult := dialResult w; dials := dials w;
                     events := events w ++ [Closed (conn_id cc)] |} |}.

(** ** newClientConn *)

Definition newClientConn (withStatsHandler : bool) : M (goresult ClientConn) :=
  s ← get;
  let cfg := config (b s) in
  let opts :=
    if insecure cfg then [WithInsecure] else [WithTransportCredentials (creds cfg)] in
  let opts :=
    if decide (authority cfg ≠ EmptyString) then opts ++ [WithAuthority (authority cfg)]
    else opts in
  let opts :=
    if 0 <? keepaliveTime cfg
    then opts ++ [WithKeepaliveParams (keepaliveTime cfg) (keepaliveTime cfg)]
    else opts in
  opts ←
    (if withStatsHandler then
       let sh := {| id := length (handlers (b s)); ignore := false |} in
       _ ← modify_b (λ r, set_handlers (handlers r ++ [sh]) r);
       mret (opts ++ [WithStatsHandler (id sh)])
     else mret opts);
  let opts := opts ++ [WithDefaultCallOptions MaxInt32 MaxInt32] in
  DialContext opts.

(** ** openClientConns and closeClientConns *)

(** The body of [for n := 0; n < b.config.nConns; n++], with [k]
    iterations left. *)
Fixpoint dialLoop (k : nat) : M (goresult (Slice ClientConn)) :=
  match k with
  | O => s ← get; mret (Val (conns (b s)))
  | S k' =>
      r ← newClientConn true;
      match r with
      | Fail e => mret (Fail e)
      | Val cc =>
          _ ← modify_b (λ r, set_conns (sappend (conns r) cc) r);
          dialLoop k'
      end
  end.

Definition openClientConns : M (goresult (Slice ClientConn)) :=
  s ← get;
  if decide (slen (conns (b s)) = nConns (config (b s)))
  then mret (Val (conns (b s)))
  else dialLoop (Z.to_nat (nConns (config (b s)))).

Fixpoint closeAll (l : list ClientConn) : M unit :=
  match l with
  | [] => mret ()
  | cc :: l' => _ ← Close cc; closeAll l'
  end.

Definition closeClientConns : M unit :=
  s ← get;
  match conns (b s) with
  | None => mret ()
  | Some l =>
      _ ← closeAll l;
      modify_b (set_conns None)
  end.

(** ** Run, up to the event loop *)

(** [l[k]] with Go's bounds check. *)
Definition index {A} (l : list A) (k : Z) : M A :=
  if decide (0 ≤ k) then
    match l !! Z.to_nat k with
    | Some x => mret x
    | None => panic "index out of range"
    end
  else panic "index out of range".

(** [for n := 0; n < b.config.nConns; n++ { b.stubs = append(b.stubs,
    NewStub(cc[n])) }], with [k] iterations left. *)
Fixpoint stubLoop (cc : Slice ClientConn) (k : nat) (i : Z) : M unit :=
  match k with
  | O => mret ()
  | S k' =>
      x ← index (selems cc) i;
      _ ← modify_b (λ r, set_stubs (stubs r ++ [NewStub x]) r);
      stubLoop cc k' (i + 1)
  end.

(** The [starting] part of [Run]: [Fail e] is [return nil, connErr]. *)
Definition Run_start : M (goresult unit) :=
  r ← openClientConns;
  match r with
  | Fail connErr => mret (Fail connErr)
  | Val cc =>
      s ← get;
      _ ← stubLoop cc (Z.to_nat (nConns (config (b s)))) 0;
      mret (Val ())
  end.

(** ** The constant-concurrency worker pool *)

(** A buffered channel of capacity 1 carrying stop notifications: [sent]
    counts every send made on it, [pending] the values not yet received. *)
Record Chan := {
  sent : nat;
  pending : nat;
  closed : bool
}.

Definition make_chan : Chan := {| sent := 0; pending := 0; closed := false |}.

(** The [Worker] struct as the pool fills it in, together with the state of
    the goroutine that runs it ([reqCount], [exited]).  The field
    [reqCounter] of the source is a pointer to [b.reqCounter]; [issued] in
    [Pool] counts the increments the workers made to it. *)
Record Worker := {
  stub : Stub;
  w_mtd : option MethodDescriptor;
  w_config : RunConfig;
  workerID : string;
  w_arrayJSONData : Slice string;
  done : option Chan;
  active : bool;
  reqCount : Z;
  exited : bool
}.

Definition setActive (v : bool) (w : Worker) : Worker :=
  {| stub := stub w; w_mtd := w_mtd w; w_config := w_config w;
     workerID := workerID w; w_arrayJSONData := w_arrayJSONData w;
     done := done w; active := v; reqCount := reqCount w; exited := exited w |}.

Definition isActive (w : Worker) : bool := active w.

Definition set_done (d : option Chan) (w : Worker) : Worker :=
  {| stub := stub w; w_mtd := w_mtd w; w_config := w_config w;
     workerID := workerID w; w_arrayJSONData := w_arrayJSONData w;
     done := d; active := active w; reqCount := reqCount w; exited := exited w |}.

Definition set_goroutine (rc : Z) (ex : bool) (w : Worker) : Worker :=
  {| stub := stub w; w_mtd := w_mtd w; w_config := w_config w;
     workerID := workerID w; w_arrayJSONData := w_arrayJSONData w;
     done := done w; active := active w; reqCount := rc; exited := ex |}.

(** [strconv.Itoa]. *)
Definition Itoa (i : Z) : string := NilZero.string_of_int (Z.to_int i).

Definition go_div (x y : Z) : M Z :=
  if decide (y = 0) then panic "runtime error: integer divide by zero"
  else mret (wrap64 (Z.quot x y)).

Definition mkWorkerID (nm : string) (i k : Z) : string :=
  let wID := "g" +:+ Itoa i +:+ "c" +:+ Itoa k in
  if decide (0 < Z.of_nat (String.length nm)) then nm +:+ ":" +:+ wID else wID.

(** The continuation predicate handed to [runWorker]. *)
Definition continue (nReqPerWorker : Z) (reqCnt : Z) : bool :=
  reqCnt <? nReqPerWorker.

(** The worker objects live in [objs]; a [*Worker] is an index into it, and
    the goroutine started for the [i]-th worker runs [objs !! i].  The map
    [workers] holds pointers, so a later worker with the same ID would
    replace the map entry but not the goroutine. *)
Fixpoint spawnLoop (k : nat) (i conn : Z) (objs : list Worker)
    (workers : gmap string nat) : M (list Worker * gmap string nat) :=
  match k with
  | O => mret (objs, workers)
  | S k' =>
      s ← get;
      let wID := mkWorkerID (name (config (b s))) i conn in
      st ← index (stubs (b s)) conn;
      let w := {| stub := st; w_mtd := mtd (b s); w_config := config (b s);
                  workerID := wID; w_arrayJSONData := arrayJSONData (b s);
                  done := Some make_chan; active := false;
                  reqCount := 0; exited := false |} in
      let w := setActive true w in
      let workers := <[wID := length objs]> workers in
      let objs := objs ++ [w] in
      let conn := conn + 1 in
      let conn := if decide (conn = nConns (config (b s))) then 0 else conn in
      spawnLoop k' (i + 1) conn objs workers
  end.

Inductive PoolPC :=
| Select
| Finishing (todo : list nat)
| Returned (err : list string)
| Crashed.

Record Pool := {
  nReqPerWorker : Z;
  objs : list Worker;
  workers : gmap string nat;
  errC : list error;
  agg_i : nat;
  agg_err : list string;
  pool_done : option (list string);
  issued : Z;
  pc : PoolPC
}.

(** The sequential head of [runConstConcurrencyWorkers]: [inl err] is an
    immediate [return err], [inr p] the pool with its goroutines started and
    its event loop about to run. *)
Definition runConstConcurrencyWorkers : M (list string + Pool) :=
  s ← get;
  q ← go_div (n (config (b s))) (c (config (b s)));
  if decide (c (config (b s)) = 0) then mret (inl [])
  else
    '(os, ws) ← spawnLoop (Z.to_nat (c (config (b s)))) 0 0 [] ∅;
    mret (inr {| nReqPerWorker := q; objs := os; workers := ws; errC := [];
                 agg_i := 0; agg_err := []; pool_done := None;
                 issued := 0; pc := Select |}).

(** *** The pool at run time *)

Definition with_objs (os : list Worker) (p : Pool) : Pool :=
  {| nReqPerWorker := nReqPerWorker p; objs := os; workers := workers p;
     errC := errC p; agg_i := agg_i p; agg_err := agg_err p;
     pool_done := pool_done p; issued := issued p; pc := pc p |}.

Definition with_pc (k : PoolPC) (p : Pool) : Pool :=
  {| nReqPerWorker := nReqPerWorker p; objs := objs p; workers := workers p;
     errC := errC p; agg_i := agg_i p; agg_err := agg_err p;
     pool_done := pool_done p; issued := issued p; pc := k |}.

Definition with_errC (es : list error) (p : Pool) : Pool :=
  {| nReqPerWorker := nReqPerWorker p; objs := objs p; workers := workers p;
     errC := es; agg_i := agg_i p; agg_err := agg_err p;
     pool_done := pool_done p; issued := issued p; pc := pc p |}.

Definition with_agg (i : nat) (e : list string) (p : Pool) : Pool :=
  {| nReqPerWorker := nReqPerWorker p; objs := objs p; workers := workers p;
     errC := errC p; agg_i := i; agg_err := e;
     pool_done := pool_done p; issued := issued p; pc := pc p |}.

Definition with_pool_done (d : option (list string)) (p : Pool) : Pool :=
  {| nReqPerWorker := nReqPerWorker p; objs := objs p; workers := workers p;
     errC := errC p; agg_i := agg_i p; agg_err := agg_err p;
     pool_done := d; issued := issued p; pc := pc p |}.

Definition with_issued (k : Z) (p : Pool) : Pool :=
  {| nReqPerWorker := nReqPerWorker p; objs := objs p; workers := workers p;
     errC := errC p; agg_i := agg_i p; agg_err := agg_err p;
     pool_done := pool_done p; issued := k; pc := pc p |}.

(** [multierr.Append]: a combined error is the list of the non-nil errors
    merged so far, [[]] is nil. *)
Definition multierr_Append (acc : list string) (e : error) : list string :=
  acc ++ option_list e.

(** [ch <- true] on a channel with room. *)
Definition chan_send (ch : Chan) : Chan :=
  {| sent := S (sent ch); pending := S (pending ch); closed := closed ch |}.

(** [<-ch] when a value is pending; a closed channel stays as it is. *)
Definition chan_recv (ch : Chan) : Chan :=
  {| sent := sent ch; pending := Nat.pred (pending ch); closed := closed ch |}.

Definition chan_close (ch : Chan) : Chan :=
  {| sent := sent ch; pending := pending ch; closed := true |}.

(** One iteration of the body of [finishWorkers] on a worker that is
    active: mark it inactive, then signal its channel when there is one. *)
Definition finishOne (w : Worker) : Worker :=
  let w := setActive false w in
  match done w with
  | Some ch => set_done (Some (chan_send ch)) w
  | None => w
  end.

(** [if wrk.done != nil { close(wrk.done) }]. *)
Definition closeOne (w : Worker) : Worker :=
  match done w with
  | Some ch => set_done (Some (chan_close ch)) w
  | None => w
  end.

(** The closing loop of the [done] branch over the pointers in the map. *)
Definition closeWorkers (ptrs : list nat) (os : list Worker) : list Worker :=
  foldr (λ i acc, alter closeOne i acc) os ptrs.

Definition pointers (ws : gmap string nat) : list nat := (map_to_list ws).*2.

(** What a step of a worker's goroutine does besides changing the worker. *)
Inductive WorkerEvent :=
| Called
| Exited (e : error).

(** Modelled from the spec: [runWorker] (worker.go) is not part of
    requester.go.  Its call loop "continues while its own completed-count
    is below its quota" ([RW_call], [RW_quota]); a stop notification "stops
    a worker from issuing its next call" ([RW_stopped], which also fires on
    a closed channel, where a receive does not block).  A worker that ends
    may clear its own active flag ([clear]) but never sets it, and returns
    its terminal error [e]. *)
Inductive runWorker_step (cont : Z → bool) : Worker → WorkerEvent → Worker → Prop :=
| RW_call w :
    exited w = false →
    cont (reqCount w) = true →
    runWorker_step cont w Called (set_goroutine (reqCount w + 1) false w)
| RW_quota w (clear : bool) (e : error) :
    exited w = false →
    cont (reqCount w) = false →
    runWorker_step cont w (Exited e)
      (set_goroutine (reqCount w) true (setActive (active w && negb clear) w))
| RW_stopped w ch (e : error) :
    exited w = false →
    done w = Some ch →
    (0 < pending ch)%nat ∨ closed ch = true →
    runWorker_step cont w (Exited e)
      (set_goroutine (reqCount w) true (set_done (Some (chan_recv ch)) w)).

(** The effect of a worker's step on the shared counter and on [errC]. *)
Definition record_event (ev : WorkerEvent) (p : Pool) : Pool :=
  match ev with
  | Called => with_issued (issued p + 1) p
  | Exited e => with_errC (errC p ++ [e]) p
  end.

(** A step of the system made of the worker goroutines ([W_step]), the
    aggregating goroutine ([A_recv], [A_send]) and the pool's own [select]
    loop (the [P_] rules), over the number of values pending in the [stop]
    channel and the pool.  [finishWorkers] visits the map in an arbitrary
    order ([todo]); a send on a full channel blocks, hence the room asked
    for by [P_signal], and a send on a closed one panics
    ([P_signal_closed]). *)
Inductive pool_step : relation (nat * Pool) :=
| W_step stop p i w ev w' :
    objs p !! i = Some w →
    runWorker_step (continue (nReqPerWorker p)) w ev w' →
    pool_step (stop, p) (stop, record_event ev (with_objs (<[i := w']> (objs p)) p))
| A_recv stop p e rest :
    errC p = e :: rest →
    (agg_i p < size (workers p))%nat →
    pool_step (stop, p)
      (stop, with_agg (S (agg_i p)) (multierr_Append (agg_err p) e)
               (with_errC rest p))
| A_send stop p :
    agg_i p = size (workers p) →
    pool_done p = None →
    pool_step (stop, p) (stop, with_pool_done (Some (agg_err p)) p)
| P_stop stop p todo :
    pc p = Select →
    todo ≡ₚ pointers (workers p) →
    pool_step (S stop, p) (stop, with_pc (Finishing todo) p)
| P_skip stop p i todo w :
    pc p = Finishing (i :: todo) →
    objs p !! i = Some w →
    isActive w = false →
    pool_step (stop, p) (stop, with_pc (Finishing todo) p)
| P_signal stop p i todo w :
    pc p = Finishing (i :: todo) →
    objs p !! i = Some w →
    isActive w = true →
    (∀ ch, done w = Some ch → closed ch = false ∧ (pending ch < 1)%nat) →
    pool_step (stop, p)
      (stop, with_pc (Finishing todo) (with_objs (<[i := finishOne w]> (objs p)) p))
| P_signal_closed stop p i todo w ch :
    pc p = Finishing (i :: todo) →
    objs p !! i = Some w →
    isActive w = true →
    done w = Some ch →
    closed ch = true →
    pool_step (stop, p) (stop, with_pc Crashed p)
| P_finished stop p :
    pc p = Finishing [] →
    pool_step (stop, p) (stop, with_pc Select p)
| P_done stop p err :
    pc p = Select →
    pool_done p = Some err →
    pool_step (stop, p)
      (stop, with_pc (Returned err)
               (with_objs (closeWorkers (pointers (workers p)) (objs p)) p)).

(** ** The event loop of Run *)

(** Modelled from the spec: [StopReason] is declared outside requester.go,
    "an open enumeration with at least NormalEnd"; the other values come
    from the external stop signal and are passed through as they are. *)
Inductive StopReason :=
| ReasonNormalEnd
| ReasonOther (s : string).

(** The [zstop] policy applied in the stop branch. *)
Definition stopPolicy : M unit :=
  s ← get;
  if decide (zstop (config (b s)) = "close") then closeClientConns
  else if decide (zstop (config (b s)) = "ignore") then
    _ ← modify_b (λ r, set_handlers (Ignore true <$> handlers r) r);
    closeClientConns
  else mret ().

(** The goroutine started for the worker pool: it does nothing when the
    strategy and schedule are not the constant pair ([Skipped]); otherwise
    it is about to call [runConstConcurrencyWorkers] ([Waiting]), runs the
    pool ([Running]) or has sent the pool's error on [done] ([Delivered]). *)
Inductive PoolGoroutine :=
| Skipped
| Waiting
| Running (p : Pool)
| Delivered.

Inductive RunPC :=
| InSelect
| SendingStop
| Finished (reason : StopReason) (err : list string)
| RunCrashed (msg : string).

Record RunState := {
  st : St;
  stopReason : StopReason;
  r_stop : nat;
  r_done : option (list string);
  goroutine : PoolGoroutine;
  rpc : RunPC
}.

Definition launches (cfg : RunConfig) : bool :=
  bool_decide (loadStrategy cfg = StrategyConcurrency) &&
  bool_decide (loadSchedule cfg = ScheduleConst).

(** The state in which [Run] enters its [for { select }] after a
    successful [Run_start] that left the Requester and network as [s]. *)
Definition Run_loop (s : St) : RunState :=
  {| st := s; stopReason := ReasonNormalEnd; r_stop := 0; r_done := None;
     goroutine := if launches (config (b s)) then Waiting else Skipped;
     rpc := InSelect |}.

(** [case reason := <-stopCh: stopReason = reason], up to the send. *)
Definition recvStop (reason : StopReason) (rs : RunState) : RunState :=
  {| st := st rs; stopReason := reason; r_stop := r_stop rs;
     r_done := r_done rs; goroutine := goroutine rs; rpc := SendingStop |}.

(** [stop <- true] followed by the policy; [None] while the send is
    blocked on the full channel (capacity 1). *)
Definition sendStop (rs : RunState) : option RunState :=
  if decide (r_stop rs < 1)%nat then
    match stopPolicy (st rs) with
    | Returns _ s' =>
        Some {| st := s'; stopReason := stopReason rs; r_stop := S (r_stop rs);
                r_done := r_done rs; goroutine := goroutine rs; rpc := InSelect |}
    | Panic msg =>
        Some {| st := st rs; stopReason := stopReason rs; r_stop := S (r_stop rs);
                r_done := r_done rs; goroutine := goroutine rs;
                rpc := RunCrashed msg |}
    end
  else None.

(** The whole stop branch, when its send goes through. *)
Definition handleStop (reason : StopReason) (rs : RunState) : option RunState :=
  sendStop (recvStop reason rs).

(** [case err := <-done]: the pipeline and channels are closed, the report
    is finalized with [stopReason], the connections are closed and [Run]
    returns. *)
Definition recvDone (err : list string) (rs : RunState) : RunState :=
  match closeClientConns (st rs) with
  | Returns _ s' =>
      {| st := s'; stopReason := stopReason rs; r_stop := r_stop rs;
         r_done := None; goroutine := goroutine rs;
         rpc := Finished (stopReason rs) err |}
  | Panic msg =>
      {| st := st rs; stopReason := stopReason rs; r_stop := r_stop rs;
         r_done := None; goroutine := goroutine rs; rpc := RunCrashed msg |}
  end.

Definition with_goroutine (g : PoolGoroutine) (stop : nat) (rs : RunState) : RunState :=
  {| st := st rs; stopReason := stopReason rs; r_stop := stop;
     r_done := r_done rs; goroutine := g; rpc := rpc rs |}.

Definition deliver (err : list string) (rs : RunState) : RunState :=
  {| st := st rs; stopReason := stopReason rs; r_stop := r_stop rs;
     r_done := Some err; goroutine := Delivered; rpc := rpc rs |}.

Definition crash (msg : string) (rs : RunState) : RunState :=
  {| st := st rs; stopReason := stopReason rs; r_stop := r_stop rs;
     r_done := r_done rs; goroutine := goroutine rs; rpc := RunCrashed msg |}.

Inductive RunEvent :=
| EvLaunch
| EvPool
| EvPoolDone
| EvStopRequest (reason : StopReason)
| EvStopForward
| EvDone.

Definition running (rs : RunState) : Prop :=
  rpc rs = InSelect ∨ rpc rs = SendingStop.

(** A step of [Run]'s event loop together with the pool goroutine.  A panic
    in a goroutine takes the process down ([RunCrashed]). *)
Inductive run_step : RunState → RunEvent → RunState → Prop :=
| R_launch rs p s' :
    running rs →
    goroutine rs = Waiting →
    runConstConcurrencyWorkers (st rs) = Returns (inr p) s' →
    run_step rs EvLaunch (with_goroutine (Running p) (r_stop rs) rs)
| R_launch_return rs err s' :
    running rs →
    goroutine rs = Waiting →
    runConstConcurrencyWorkers (st rs) = Returns (inl err) s' →
    run_step rs EvPoolDone (deliver err rs)
| R_launch_panic rs msg :
    running rs →
    goroutine rs = Waiting →
    runConstConcurrencyWorkers (st rs) = Panic msg →
    run_step rs EvLaunch (crash msg rs)
| R_pool rs p stop' p' :
    running rs →
    goroutine rs = Running p →
    pool_step (r_stop rs, p) (stop', p') →
    run_step rs EvPool (with_goroutine (Running p') stop' rs)
| R_pool_return rs p err :
    running rs →
    goroutine rs = Running p →
    pc p = Returned err →
    run_step rs EvPoolDone (deliver err rs)
| R_pool_crash rs p :
    running rs →
    goroutine rs = Running p →
    pc p = Crashed →
    run_step rs EvPool (crash "send on closed channel" rs)
| R_stop_request rs reason :
    rpc rs = InSelect →
    run_step rs (EvStopRequest reason) (recvStop reason rs)
| R_stop_forward rs rs' :
    rpc rs = SendingStop →
    sendStop rs = Some rs' →
    run_step rs EvStopForward rs'
| R_done rs err :
    rpc rs = InSelect →
    r_done rs = Some err →
    run_step rs EvDone (recvDone err rs).

Definition run_next (rs rs' : RunState) : Prop := ∃ ev, run_step rs ev rs'.

(** ** Construction *)

(** [strings.IndexRune] for a one-byte rune: the index of its first
    occurrence, or -1. *)
Fixpoint IndexRune (s : string) (r : ascii) : Z :=
  match s with
  | EmptyString => -1
  | String a s' =>
      if decide (a = r) then 0
      else let k := IndexRune s' r in if decide (k = -1) then -1 else k + 1
  end.

(** Modelled from the spec: the per-call payload selection is in the
    worker, not in requester.go; "index policy: counter value modulo table
    length". *)
Definition selectPayload (table : list string) (k : Z) : option string :=
  table !! Z.to_nat (Z.rem k (Z.of_nat (length table))).

(** The Requester literal [newRequester] starts from: the configuration,
    the result channel of capacity [min(c.c*1000, maxResult)], and the two
    empty slices made with capacity [nConns]. *)
Definition freshRequester (cfg : RunConfig) : Requester :=
  {| conns := Some []; stubs := []; handlers := []; mtd := None; config := cfg;
     results_cap := min (wrap64 (c cfg * 1000)) maxResult; reqCounter := 0;
     arrayJSONData := None |}.

Section Construction.

(** The descriptor sources (package protodesc), the dynamic-message
    constructor and encoding/json are collaborators of [newRequester]. *)
Variable GetMethodDescFromProto :
  string → string → list string → goresult MethodDescriptor.
Variable GetMethodDescFromProtoSet : string → string → goresult MethodDescriptor.
Variable GetMethodDescFromReflect :
  string → ClientConn → Z → list (string * string) → goresult MethodDescriptor.
(** [dynamic.NewMessage(mtd.GetInputType()) != nil]. *)
Variable NewMessage : MethodDescriptor → bool.
(** A decoded [map[string]interface{}]. *)
Variable JSONObject : Type.
Variable json_Unmarshal : string → goresult (list JSONObject).
Variable json_Marshal : JSONObject → goresult string.

(** [for i, d := range dat { ...; reqr.arrayJSONData[i] = string(strd) }]
    from index [i] on. *)
Fixpoint marshalLoop (dat : list JSONObject) (i : nat) : M (goresult unit) :=
  match dat with
  | [] => mret (Val ())
  | d :: dat' =>
      match json_Marshal d with
      | Fail e => mret (Fail e)
      | Val strd =>
          _ ← modify_b (λ r,
                set_arrayJSONData (Some (<[i := strd]> (selems (arrayJSONData r)))) r);
          marshalLoop dat' (S i)
      end
  end.

(** [newRequester] from [if err != nil] on, given the outcome of the
    resolution. *)
Definition fillIn (res : goresult MethodDescriptor) : M (goresult unit) :=
  match res with
  | Fail e => mret (Fail e)
  | Val m =>
      if NewMessage m then
        _ ← modify_b (set_mtd (Some m));
        _ ← modify_b (set_arrayJSONData None);
        s ← get;
        let cfg := config (b s) in
        if negb (binary cfg) && negb (IsClientStreaming m) then
          if decide (IndexRune (data cfg) "[" = 0) then
            match json_Unmarshal (data cfg) with
            | Fail e => mret (Fail e)
            | Val dat =>
                _ ← modify_b (set_arrayJSONData
                                (Some (replicate (length dat) EmptyString)));
                marshalLoop dat 0
            end
          else mret (Val ())
        else mret (Val ())
      else mret (Fail ("No input type of method: " +:+ mtd_name m))
  end.

(** The three descriptor sources in the order the source tries them; the
    deferred [cc.Close()] of the reflection branch runs when the function
    returns. *)
Definition resolveAndFill : M (goresult unit) :=
  s ← get;
  let cfg := config (b s) in
  if decide (proto cfg ≠ EmptyString) then
    fillIn (GetMethodDescFromProto (call cfg) (proto cfg) (importPaths cfg))
  else if decide (protoset cfg ≠ EmptyString) then
    fillIn (GetMethodDescFromProtoSet (call cfg) (protoset cfg))
  else
    r ← newClientConn false;
    match r with
    | Fail e => mret (Fail e)
    | Val cc =>
        res ← fillIn (GetMethodDescFromReflect (call cfg) cc (dialTimeout cfg) (rmd cfg));
        _ ← Close cc;
        mret res
    end.

(** [newRequester c] started on the network [w].  [Returns (Val ()) s]:
    the new Requester is [b s]; [Returns (Fail e) s] is [return nil, e]
    and only [world s] is of interest.  The two [make] calls panic on a
    negative size. *)
Definition newRequester (cfg : RunConfig) (w : World) : outcome (goresult unit) :=
  if decide (min (wrap64 (c cfg * 1000)) maxResult < 0)
  then Panic "makechan: size out of range"
  else if decide (nConns cfg < 0) then Panic "makeslice: cap out of range"
  else resolveAndFill {| b := freshRequester cfg; world := w |}.

(** The answer of the descriptor source that [resolveAndFill] consults
    when started in [s]; on the reflection path it is asked over the
    connection that [newClientConn false] dials. *)
Definition resolution (s : St) : goresult MethodDescriptor :=
  let cfg := config (b s) in
  if decide (proto cfg ≠ EmptyString) then
    GetMethodDescFromProto (call cfg) (proto cfg) (importPaths cfg)
  else if decide (protoset cfg ≠ EmptyString) then
    GetMethodDescFromProtoSet (call cfg) (protoset cfg)
  else
    match newClientConn false s with
    | Returns (Val cc) _ =>
        GetMethodDescFromReflect (call cfg) cc (dialTimeout cfg) (rmd cfg)
    | Returns (Fail e) _ => Fail e
    | Panic msg => Fail msg
    end.

End Construction.

(** * Observations, invariants and sample inputs *)

(** ** The network and sample configurations *)

(** The connections on which [Close] has been called, in order. *)
Definition closed_conns (w : World) : list nat :=
  omap (λ ev, match ev with Closed k => Some k | _ => None end) (events w).

(** A network on which the dial attempts listed in [bad] fail. *)
Definition network (bad : list nat) : World :=
  {| dialResult := λ k, if bool_decide (k ∈ bad) then Some "connection refused" else None;
     dials := 0;
     events := [] |}.

(** A configuration with the constant strategy and schedule, the proto
    source and an object payload. *)
Definition sampleConfig (total conc nconn : Z) (policy : string) : RunConfig :=
  {| call := "helloworld.Greeter.SayHello"; host := "localhost:50051";
     proto := "greeter.proto"; importPaths := []; protoset := EmptyString;
     n := total; c := conc; nConns := nconn;
     loadStrategy := StrategyConcurrency; loadSchedule := ScheduleConst;
     name := EmptyString; zstop := policy; binary := false;
     data := "{}"; rmd := []; insecure := true; creds := EmptyString;
     authority := EmptyString; dialTimeout := 10; keepaliveTime := 0 |}.

(** The Requester just built, on such a network. *)
Definition freshState (cfg : RunConfig) (bad : list nat) : St :=
  {| b := freshRequester cfg; world := network bad |}.

(** ** The connection pool and the workers *)

(** The tap that the next [newClientConn true] registers. *)
Definition tap (r : Requester) : statsHandler :=
  {| id := length (handlers r); ignore := false |}.

(** The state after one [newClientConn true], whose dial is recorded as
    [ev]. *)
Definition after_dial (ev : NetEvent) (s : St) : St :=
  {| b := set_handlers (handlers (b s) ++ [tap (b s)]) (b s);
     world := {| dialResult := dialResult (world s);
                 dials := S (dials (world s));
                 events := events (world s) ++ [ev] |} |}.

(** The character [a] does not occur in [s]. *)
Fixpoint lacks (a : ascii) (s : string) : Prop :=
  match s with
  | EmptyString => True
  | String x s' => x ≠ a ∧ lacks a s'
  end.

(** The [j]-th worker as the loop of [runConstConcurrencyWorkers] builds
    it from the Requester of [s]. *)
Definition created (s : St) (j : nat) (w : Worker) : Prop :=
  stubs (b s) !! Z.to_nat (Z.of_nat j mod nConns (config (b s))) = Some (stub w)
  ∧ workerID w
    = mkWorkerID (name (config (b s))) (Z.of_nat j)
        (Z.of_nat j mod nConns (config (b s)))
  ∧ done w = Some make_chan
  ∧ active w = true
  ∧ reqCount w = 0
  ∧ exited w = false.

(** What the creation loop maintains: the objects are the workers created
    so far, in order, and the map holds each of them once, under its ID. *)
Record spawned (s : St) (os : list Worker) (ws : gmap string nat) : Prop := {
  sp_objs : ∀ j w, os !! j = Some w → created s j w;
  sp_map : ∀ wid p, ws !! wid = Some p → ∃ w, os !! p = Some w ∧ workerID w = wid;
  sp_in : ∀ j w, os !! j = Some w → ws !! workerID w = Some j;
  sp_ptrs : pointers ws ≡ₚ seq 0 (length os)
}.

(** The Requester and network once [Run_start] has run on a fresh
    Requester with every dial succeeding. *)
Definition readyState (cfg : RunConfig) : St :=
  match Run_start (freshState cfg []) with
  | Returns _ s => s
  | Panic _ => freshState cfg []
  end.









(** The sum of [f] over the workers. *)
Definition total (f : Worker → Z) (l : list Worker) : Z :=
  foldr (λ w acc, f w + acc) 0 l.

(** 1 for a worker whose goroutine has returned, else 0. *)
Definition ended (w : Worker) : Z := if exited w then 1 else 0.

(** The invariant of a pool that never receives a stop signal. *)
Record count_inv (q : Z) (stop : nat) (p : Pool) : Prop := {
  ci_stop : stop = 0%nat;
  ci_quota : nReqPerWorker p = q;
  ci_pc : pc p = Select ∨ ∃ res, pc p = Returned res;
  ci_chan : ∀ i w ch, objs p !! i = Some w → done w = Some ch →
      pending ch = 0%nat ∧ (closed ch = true → ∃ res, pc p = Returned res);
  ci_count : ∀ i w, objs p !! i = Some w →
      0 ≤ reqCount w ≤ q ∧ (exited w = true → reqCount w = q);
  ci_issued : issued p = total reqCount (objs p);
  ci_ended : total ended (objs p) = Z.of_nat (length (errC p)) + Z.of_nat (agg_i p);
  ci_size : size (workers p) = length (objs p);
  ci_done : pool_done p ≠ None → agg_i p = size (workers p);
  ci_ret : ∀ res, pc p = Returned res → pool_done p ≠ None
}.

(** What is left to do before the pool can return. *)
Definition remaining (q : Z) (p : Pool) : Z :=
  (q * Z.of_nat (length (objs p)) - total reqCount (objs p))
  + (Z.of_nat (length (objs p)) - total ended (objs p))
  + (Z.of_nat (size (workers p)) - Z.of_nat (agg_i p))
  + (match pool_done p with Some _ => 0 | None => 1 end).

(** ** The event loop of Run *)

(** A Requester with three open connections and their taps, in the event
    loop of [Run], no stop received yet. *)
Definition loopState (policy : string) : RunState :=
  Run_loop (readyState (sampleConfig 100 10 3 policy)).

(** A value is on [done] only once the pool goroutine has delivered it. *)
Definition done_inv (rs : RunState) : Prop :=
  r_done rs ≠ None → goroutine rs = Delivered.

(** With [c == 0] the pool goroutine never gets past its start. *)
Definition zero_inv (rs : RunState) : Prop :=
  goroutine rs = Waiting ∧ r_done rs = None ∧ c (config (b (st rs))) = 0
  ∧ ∀ reason res, rpc rs ≠ Finished reason res.

(** When the goroutine of the pool does nothing, nothing is ever sent on
    [done] and [Run] stays in its loop. *)
Definition skipped_inv (rs : RunState) : Prop :=
  goroutine rs = Skipped ∧ r_done rs = None ∧ ∀ reason res, rpc rs ≠ Finished reason res.

(** A configuration whose schedule is not the constant one. *)
Definition steppedConfig : RunConfig :=
  {| call := "helloworld.Greeter.SayHello"; host := "localhost:50051";
     proto := "greeter.proto"; importPaths := []; protoset := EmptyString;
     n := 100; c := 10; nConns := 2;
     loadStrategy := StrategyConcurrency; loadSchedule := ScheduleOther "step";
     name := EmptyString; zstop := "close"; binary := false;
     data := "{}"; rmd := []; insecure := true; creds := EmptyString;
     authority := EmptyString; dialTimeout := 10; keepaliveTime := 0 |}.

(** The fields of the Requester that the payload table does not touch. *)
Definition same_pool (s s' : St) : Prop :=
  world s' = world s
  ∧ conns (b s') = conns (b s)
  ∧ handlers (b s') = handlers (b s)
  ∧ stubs (b s') = stubs (b s)
  ∧ config (b s') = config (b s).

(** How the result of construction follows the answer [res] of the
    descriptor source: an error is handed on, and a Requester is only
    returned with the descriptor that was answered, for which a message
    could be made ([newMsg]). *)
Definition follows (newMsg : MethodDescriptor → bool)
    (res : goresult MethodDescriptor) (r : goresult unit) (s' : St) : Prop :=
  (∀ e, res = Fail e → r = Fail e)
  ∧ (r = Val () → ∃ m, res = Val m ∧ newMsg m = true ∧ mtd (b s') = Some m).

(** ** Sample collaborators of construction *)

(** A unary method. *)
Definition sayHello : MethodDescriptor :=
  {| mtd_name := "SayHello"; IsClientStreaming := false |}.

(** Descriptor sources that know one proto file and answer reflection. *)
Definition sampleFromProto (cl pr : string) (paths : list string)
    : goresult MethodDescriptor :=
  if decide (pr = "greeter.proto") then Val sayHello else Fail "no such file".

Definition sampleFromProtoSet (cl ps : string) : goresult MethodDescriptor :=
  Fail "no such file".

Definition sampleFromReflect (cl : string) (cc : ClientConn) (timeout : Z)
    (md : list (string * string)) : goresult MethodDescriptor :=
  Val sayHello.

(** A decoder for arrays of empty objects, enough for a payload such as
    "[{},{}]": an object is its list of members. *)
Fixpoint sampleItems (fuel : nat) (s : string) : goresult (list (list (string * string))) :=
  match fuel with
  | O => Fail "unexpected end of JSON input"
  | S fuel' =>
      match s with
      | String "{" (String "}" (String "," rest)) =>
          match sampleItems fuel' rest with
          | Val l => Val ([] :: l)
          | Fail e => Fail e
          end
      | String "{" (String "}" (String "]" EmptyString)) => Val [[]]
      | _ => Fail "cannot unmarshal"
      end
  end.

Definition sampleUnmarshal (s : string) : goresult (list (list (string * string))) :=
  match s with
  | String "[" (String "]" EmptyString) => Val []
  | String "[" rest => sampleItems (String.length rest) rest
  | _ => Fail "cannot unmarshal"
  end.

(** The encoder for the objects that decoder produces. *)
Definition sampleMarshal (d : list (string * string)) : goresult string :=
  match d with
  | [] => Val "{}"
  | _ => Fail "unsupported value"
  end.

(** A configuration whose payload is an array of two objects. *)
Definition arrayConfig : RunConfig :=
  {| call := "helloworld.Greeter.SayHello"; host := "localhost:50051";
     proto := "greeter.proto"; importPaths := []; protoset := EmptyString;
     n := 100; c := 10; nConns := 5;
     loadStrategy := StrategyConcurrency; loadSchedule := ScheduleConst;
     name := EmptyString; zstop := "close"; binary := false;
     data := "[{},{}]"; rmd := []; insecure := true; creds := EmptyString;
     authority := EmptyString; dialTimeout := 10; keepaliveTime := 0 |}.

(** Construction with the sample collaborators. *)
Definition sampleNewRequester : RunConfig → World → outcome (goresult unit) :=
  newRequester sampleFromProto sampleFromProtoSet sampleFromReflect (λ _, true)
    (list (string * string)) sampleUnmarshal sampleMarshal.

(** ** Dial options and taps *)

(** The options [newClientConn] passes to [grpc.DialContext] under [cfg],
    with the ID of the stats handler when one is registered. *)
Definition dialOptions (cfg : RunConfig) (handler : option nat) : list DialOption :=
  [if insecure cfg then WithInsecure else WithTransportCredentials (creds cfg)]
  ++ (if decide (authority cfg ≠ EmptyString) then [WithAuthority (authority cfg)] else [])
  ++ (if 0 <? keepaliveTime cfg
      then [WithKeepaliveParams (keepaliveTime cfg) (keepaliveTime cfg)] else [])
  ++ (match handler with Some k => [WithStatsHandler k] | None => [] end)
  ++ [WithDefaultCallOptions MaxInt32 MaxInt32].

(** Every tap has its position in [b.handlers] as its ID. *)
Definition numbered (hs : list statsHandler) : Prop :=
  ∀ i h, hs !! i = Some h → id h = i.

(** The connection that the [j]-th dial of an open started in [s] yields. *)
Definition dialedConn (s : St) (j : nat) : ClientConn :=
  {| conn_id := (dials (world s) + j)%nat;
     conn_opts := dialOptions (config (b s)) (Some (length (handlers (b s)) + j)%nat) |}.

(** The tap registered for that dial. *)
Definition dialedTap (s : St) (j : nat) : statsHandler :=
  {| id := (length (handlers (b s)) + j)%nat; ignore := false |}.

(** A configuration with TLS credentials, an authority and keepalive. *)
Definition tunedConfig : RunConfig :=
  {| call := "helloworld.Greeter.SayHello"; host := "localhost:50051";
     proto := "greeter.proto"; importPaths := []; protoset := EmptyString;
     n := 100; c := 10; nConns := 3;
     loadStrategy := StrategyConcurrency; loadSchedule := ScheduleConst;
     name := "bench"; zstop := "ignore"; binary := false;
     data := "{}"; rmd := []; insecure := false; creds := "tls";
     authority := "greeter.internal"; dialTimeout := 10; keepaliveTime := 30 |}.

(** * Properties *)

(** ** The monad *)

Lemma bind_returns {A B} (m : M A) (f : A → M B) s a s' :
  m s = Returns a s' → (m ≫= f) s = f a s'.
Proof. intros H. unfold mbind, M_bind. by rewrite H. Qed.

Lemma bind_panic {A B} (m : M A) (f : A → M B) s msg :
  m s = Panic msg → (m ≫= f) s = Panic msg.
Proof. intros H. unfold mbind, M_bind. by rewrite H. Qed.

Ltac munfold :=
  unfold mbind, mret, M_bind, M_ret, get, put, panic, modify_b in *.

(** ** The connection pool *)

Lemma newClientConn_true s :
  ∃ opts,
    newClientConn true s =
      match dialResult (world s) (dials (world s)) with
      | None =>
          Returns (Val {| conn_id := dials (world s); conn_opts := opts |})
            (after_dial (Dialed (dials (world s)) opts) s)
      | Some e => Returns (Fail e) (after_dial (DialFailed (dials (world s)) opts) s)
      end.
Proof.
  unfold newClientConn, DialContext. munfold. simpl.
  eexists. destruct (dialResult (world s) (dials (world s))); reflexivity.
Qed.

Lemma closed_conns_snoc_dial w ev :
  (∀ k, ev ≠ Closed k) →
  closed_conns {| dialResult := dialResult w; dials := S (dials w);
                  events := events w ++ [ev] |} = closed_conns w.
Proof.
  intros Hev. unfold closed_conns. simpl. rewrite omap_app. simpl.
  destruct ev; try by rewrite app_nil_r. by destruct (Hev k).
Qed.

(** What a failing [dialLoop] leaves behind. *)
Lemma dialLoop_fail k : ∀ s j e,
  (j < k)%nat →
  dialResult (world s) (dials (world s) + j)%nat = Some e →
  (∀ i, (i < j)%nat → dialResult (world s) (dials (world s) + i)%nat = None) →
  ∃ s', dialLoop k s = Returns (Fail e) s'
      ∧ dials (world s') = (dials (world s) + S j)%nat
      ∧ conn_id <$> selems (conns (b s'))
        = (conn_id <$> selems (conns (b s))) ++ seq (dials (world s)) j
      ∧ closed_conns (world s') = closed_conns (world s)
      ∧ stubs (b s') = stubs (b s)
      ∧ config (b s') = config (b s).
Proof.
  induction k as [|k IH]; intros s j e Hj He Hok; [lia|].
  destruct (newClientConn_true s) as [opts Hn].
  destruct j as [|j].
  - rewrite Nat.add_0_r in He. rewrite He in Hn.
    eexists. split; [simpl; by rewrite (bind_returns _ _ _ _ _ Hn)|].
    simpl. rewrite app_nil_r. repeat split; try done; try lia.
    by apply closed_conns_snoc_dial.
  - pose proof (Hok 0%nat ltac:(lia)) as H0. rewrite Nat.add_0_r in H0.
    rewrite H0 in Hn.
    set (s1 := {| b := set_conns (sappend (conns (b (after_dial (Dialed (dials (world s)) opts) s)))
                                   {| conn_id := dials (world s); conn_opts := opts |})
                          (b (after_dial (Dialed (dials (world s)) opts) s));
                  world := world (after_dial (Dialed (dials (world s)) opts) s) |}).
    destruct (IH s1 j e) as (s' & Hrun & Hd & Hc & Hcl & Hst & Hcfg).
    + lia.
    + simpl. rewrite <- He. f_equal. lia.
    + intros i Hi. simpl. rewrite <- (Hok (S i)) by lia. f_equal. lia.
    + exists s'. split.
      { simpl. rewrite (bind_returns _ _ _ _ _ Hn). simpl. munfold. exact Hrun. }
      rewrite Hd, Hc, Hcl, Hst, Hcfg. simpl.
      repeat split; try done; try lia.
      * rewrite fmap_app. simpl. by rewrite <- app_assoc.
      * by apply closed_conns_snoc_dial.
Qed.

(** What a [dialLoop] whose dials all succeed leaves behind. *)
Lemma dialLoop_ok k : ∀ s,
  (∀ i, (i < k)%nat → dialResult (world s) (dials (world s) + i)%nat = None) →
  ∃ s', dialLoop k s = Returns (Val (conns (b s'))) s'
      ∧ dials (world s') = (dials (world s) + k)%nat
      ∧ length (selems (conns (b s'))) = (length (selems (conns (b s))) + k)%nat
      ∧ (k = 0%nat → s' = s)
      ∧ (k ≠ 0%nat → conns (b s') ≠ None)
      ∧ config (b s') = config (b s).
Proof.
  induction k as [|k IH]; intros s Hok.
  - exists s. simpl. repeat split; try done; lia.
  - destruct (newClientConn_true s) as [opts Hn].
    pose proof (Hok 0%nat ltac:(lia)) as H0. rewrite Nat.add_0_r in H0.
    rewrite H0 in Hn.
    set (s1 := {| b := set_conns (sappend (conns (b (after_dial (Dialed (dials (world s)) opts) s)))
                                   {| conn_id := dials (world s); conn_opts := opts |})
                          (b (after_dial (Dialed (dials (world s)) opts) s));
                  world := world (after_dial (Dialed (dials (world s)) opts) s) |}).
    destruct (IH s1) as (s' & Hrun & Hd & Hlen & _ & Hne & Hcfg).
    + intros i Hi. simpl. rewrite <- (Hok (S i)) by lia. f_equal. lia.
    + exists s'. split.
      { simpl. rewrite (bind_returns _ _ _ _ _ Hn). simpl. munfold. exact Hrun. }
      rewrite Hd, Hlen, Hcfg. simpl. rewrite length_app. simpl.
      repeat split; try done; try lia.
      intros _. destruct k; [|by apply Hne].
      simpl in Hrun. munfold. by inversion Hrun.
Qed.

Lemma closeAll_returns l : ∀ s,
  ∃ s', closeAll l s = Returns () s'
      ∧ b s' = b s
      ∧ dials (world s') = dials (world s)
      ∧ dialResult (world s') = dialResult (world s)
      ∧ events (world s') = events (world s) ++ (Closed ∘ conn_id <$> l).
Proof.
  induction l as [|cc l IH]; intros s.
  - exists s. simpl. by rewrite app_nil_r.
  - simpl. unfold Close at 1. munfold.
    match goal with |- context [closeAll l ?s1] => destruct (IH s1) as (s' & Hr & Hb & Hd & Hf & He) end.
    exists s'. rewrite Hr, Hb, Hd, Hf, He. simpl.
    by rewrite <- app_assoc.
Qed.

(** [closeClientConns] always returns. *)
Lemma closeClientConns_returns s :
  ∃ s', closeClientConns s = Returns () s'
      ∧ conns (b s') = None
      ∧ events (world s') = events (world s) ++ (Closed ∘ conn_id <$> selems (conns (b s)))
      ∧ handlers (b s') = handlers (b s)
      ∧ stubs (b s') = stubs (b s)
      ∧ config (b s') = config (b s).
Proof.
  unfold closeClientConns. munfold.
  destruct (conns (b s)) as [l|] eqn:Hc.
  - destruct (closeAll_returns l s) as (s1 & Hr & Hb & _ & _ & He).
    rewrite Hr. eexists. split; [reflexivity|]. simpl.
    by rewrite Hb, He.
  - exists s. simpl. by rewrite Hc, app_nil_r.
Qed.

(** ** C2 *)

Lemma slen_selems {A} (s : Slice A) : slen s = Z.of_nat (length (selems s)).
Proof. by destruct s. Qed.

(** C2, counterexample: with [nConns = 2], a first dial that succeeds and a
    second that fails, [openClientConns] returns the error and the
    Requester still holds the first connection, which nobody closed. *)
Lemma openClientConns_keeps_dialed_prefix :
  ∃ s', openClientConns (freshState (sampleConfig 10 2 2 "close") [1%nat])
        = Returns (Fail "connection refused") s'
      ∧ conn_id <$> selems (conns (b s')) = [0%nat]
      ∧ selems (conns (b s')) ≠ []
      ∧ closed_conns (world s') = [].
Proof.
  eexists. split; [vm_compute; reflexivity|].
  repeat split; try reflexivity. discriminate.
Qed.

(** C2, amended: when a dial of [openClientConns] fails (the [j]-th of the
    call, the earlier ones having succeeded), the operation stops at that
    dial and returns its error with a nil connection set, [Run] returns the
    same error without building a stub, and the [j] connections dialed
    before the failure stay in [b.conns], after the ones already there,
    without being closed. *)
Theorem openClientConns_dial_failure (s : St) (j : nat) (e : string) :
  slen (conns (b s)) ≠ nConns (config (b s)) →
  (j < Z.to_nat (nConns (config (b s))))%nat →
  dialResult (world s) (dials (world s) + j)%nat = Some e →
  (∀ i, (i < j)%nat → dialResult (world s) (dials (world s) + i)%nat = None) →
  ∃ s', openClientConns s = Returns (Fail e) s'
      ∧ Run_start s = Returns (Fail e) s'
      ∧ dials (world s') = (dials (world s) + S j)%nat
      ∧ conn_id <$> selems (conns (b s'))
        = (conn_id <$> selems (conns (b s))) ++ seq (dials (world s)) j
      ∧ closed_conns (world s') = closed_conns (world s)
      ∧ stubs (b s') = stubs (b s).
Proof.
  intros Hlen Hj He Hok.
  destruct (dialLoop_fail _ s j e Hj He Hok) as (s' & Hrun & Hd & Hc & Hcl & Hst & _).
  assert (Hopen : openClientConns s = Returns (Fail e) s').
  { unfold openClientConns. munfold. by rewrite decide_False. }
  exists s'. repeat split; try done.
  unfold Run_start. by rewrite (bind_returns _ _ _ _ _ Hopen).
Qed.

Lemma openClientConns_dial_failure_witness :
  ∃ s', openClientConns (freshState (sampleConfig 10 2 2 "close") [1%nat])
        = Returns (Fail "connection refused") s'
      ∧ Run_start (freshState (sampleConfig 10 2 2 "close") [1%nat])
        = Returns (Fail "connection refused") s'
      ∧ dials (world s') = 2%nat
      ∧ conn_id <$> selems (conns (b s')) = [0%nat]
      ∧ closed_conns (world s') = []
      ∧ stubs (b s') = [].
Proof.
  apply (openClientConns_dial_failure
           (freshState (sampleConfig 10 2 2 "close") [1%nat]) 1 "connection refused").
  - vm_compute. discriminate.
  - vm_compute. lia.
  - reflexivity.
  - intros i Hi. assert (i = 0%nat) as -> by lia. reflexivity.
Defined.

(** ** C3 *)

(** C3, counterexample: after the failed open above the pool holds one
    connection; the next open dials two more and returns three, and the
    open after that, with no close in between, dials again and returns
    five. *)
Lemma openClientConns_reopens_after_failure :
  ∃ s1 s2 s3 cs2 cs3,
    openClientConns (freshState (sampleConfig 10 2 2 "close") [1%nat])
    = Returns (Fail "connection refused") s1
    ∧ openClientConns s1 = Returns (Val cs2) s2
    ∧ openClientConns s2 = Returns (Val cs3) s3
    ∧ conn_id <$> selems cs2 = [0; 2; 3]%nat
    ∧ conn_id <$> selems cs3 = [0; 2; 3; 4; 5]%nat
    ∧ cs2 ≠ cs3
    ∧ dials (world s2) = 4%nat
    ∧ dials (world s3) = 6%nat.
Proof.
  do 5 eexists.
  split; [vm_compute; reflexivity|].
  split; [vm_compute; reflexivity|].
  split; [vm_compute; reflexivity|].
  repeat split; try reflexivity. discriminate.
Qed.

(** C3, amended: when the pool holds exactly [nConns] connections,
    [openClientConns] returns them and changes nothing (no dial); so an
    open that succeeds on an empty or cleared pool, followed by a second
    open, returns the identical set.  [closeClientConns] always returns,
    a second close in a row changes nothing, and on an empty or cleared
    pool it closes no connection and leaves the pool cleared. *)
Theorem pool_open_close_idempotent (s : St) :
  (slen (conns (b s)) = nConns (config (b s)) →
   openClientConns s = Returns (Val (conns (b s))) s)
  ∧ (selems (conns (b s)) = [] →
     (∀ i, (i < Z.to_nat (nConns (config (b s))))%nat →
           dialResult (world s) (dials (world s) + i)%nat = None) →
     ∃ s', openClientConns s = Returns (Val (conns (b s'))) s'
         ∧ openClientConns s' = Returns (Val (conns (b s'))) s')
  ∧ (∃ s', closeClientConns s = Returns () s'
         ∧ closeClientConns s' = Returns () s'
         ∧ (selems (conns (b s)) = [] →
            world s' = world s ∧ b s' = set_conns None (b s))).
Proof.
  assert (Hsame : ∀ t, slen (conns (b t)) = nConns (config (b t)) →
                       openClientConns t = Returns (Val (conns (b t))) t).
  { intros t Ht. unfold openClientConns. munfold. by rewrite decide_True. }
  split; [apply Hsame|]. split.
  - intros Hempty Hok.
    destruct (decide (slen (conns (b s)) = nConns (config (b s)))) as [Heq|Hne].
    { exists s. split; by apply Hsame. }
    destruct (dialLoop_ok _ s Hok) as (s' & Hrun & _ & Hlen & Hz & Hnz & Hcfg).
    exists s'. split.
    { unfold openClientConns. munfold. by rewrite decide_False. }
    destruct (decide (Z.to_nat (nConns (config (b s))) = 0%nat)) as [H0|H0].
    + rewrite (Hz H0). unfold openClientConns. munfold.
      rewrite decide_False by done. by rewrite H0.
    + apply Hsame. rewrite slen_selems, Hlen, Hempty, Hcfg. simpl. lia.
  - unfold closeClientConns at 1. munfold.
    destruct (conns (b s)) as [l|] eqn:Hc.
    + destruct (closeAll_returns l s) as (s1 & Hr & Hb & Hd & Hf & He).
      rewrite Hr. eexists. split; [reflexivity|]. split; [reflexivity|].
      simpl. intros ->. simpl in *. rewrite app_nil_r in He.
      rewrite Hb. split; [|done].
      destruct (world s1), (world s); simpl in *; by subst.
    + exists s. split; [done|]. split.
      * unfold closeClientConns. munfold. by rewrite Hc.
      * intros _. split; [done|]. destruct s as [[] ?]; simpl in *. by subst.
Qed.

Lemma pool_open_close_idempotent_witness :
  ∃ s', openClientConns (freshState (sampleConfig 10 2 2 "close") [])
        = Returns (Val (conns (b s'))) s'
      ∧ openClientConns s' = Returns (Val (conns (b s'))) s'.
Proof.
  apply (pool_open_close_idempotent (freshState (sampleConfig 10 2 2 "close") [])).
  - reflexivity.
  - intros i _. reflexivity.
Defined.

(** ** Worker identities *)

Lemma string_of_uint_digits d : lacks "c" (NilEmpty.string_of_uint d).
Proof. induction d; simpl; try done; split; done. Qed.

Lemma Itoa_digits i : 0 ≤ i → lacks "c" (Itoa i).
Proof.
  intros Hi. unfold Itoa. destruct i as [|p|p]; [simpl; done| |lia].
  simpl. generalize (Pos.to_uint p) as d. intros d.
  destruct d; simpl; try done; split; try done; apply string_of_uint_digits.
Qed.

Lemma Itoa_inj i j : Itoa i = Itoa j → i = j.
Proof.
  intros H. apply DecimalZ.to_int_inj.
  assert (Hnz : ∀ z, Z.to_int z ≠ Decimal.Pos Decimal.Nil
                     ∧ Z.to_int z ≠ Decimal.Neg Decimal.Nil).
  { intros [|p|p]; simpl; split; try discriminate;
      intros [= Hp]; by apply (DecimalPos.Unsigned.to_uint_nonnil p). }
  assert (Hi : NilZero.int_of_string (Itoa i) = Some (Z.to_int i))
    by (apply NilZero.isi; apply Hnz).
  assert (Hj : NilZero.int_of_string (Itoa j) = Some (Z.to_int j))
    by (apply NilZero.isi; apply Hnz).
  rewrite H in Hi. congruence.
Qed.

Lemma append_assoc (s t u : string) : (s +:+ t) +:+ u = s +:+ t +:+ u.
Proof.
  induction s as [|a s IH]; [done|].
  change (String a ((s +:+ t) +:+ u) = String a (s +:+ t +:+ u)).
  by rewrite IH.
Qed.

Lemma append_cancel_l (p s t : string) : p +:+ s = p +:+ t → s = t.
Proof. induction p as [|a p IH]; simpl; [done|]. intros [= H]. by apply IH. Qed.

Lemma split_at_char (a : ascii) (s1 : string) : ∀ s2 t1 t2,
  lacks a s1 → lacks a s2 →
  s1 +:+ String a t1 = s2 +:+ String a t2 → s1 = s2.
Proof.
  induction s1 as [|x s1 IH]; intros [|y s2] t1 t2 H1 H2 Heq; simpl in *.
  - done.
  - injection Heq as -> _. by destruct H2.
  - injection Heq as -> _. by destruct H1.
  - injection Heq as -> Heq. f_equal.
    apply (IH s2 t1 t2); tauto.
Qed.

(** Workers created at different concurrency indices have different IDs. *)
Lemma mkWorkerID_inj nm i k i' k' :
  0 ≤ i → 0 ≤ i' → mkWorkerID nm i k = mkWorkerID nm i' k' → i = i'.
Proof.
  intros Hi Hi' H. unfold mkWorkerID in H.
  assert (Hg : "g" +:+ Itoa i +:+ "c" +:+ Itoa k
               = "g" +:+ Itoa i' +:+ "c" +:+ Itoa k').
  { destruct (decide (0 < Z.of_nat (String.length nm))); [|done].
    apply (append_cancel_l ":"), (append_cancel_l nm), H. }
  simpl in Hg. injection Hg as Hg.
  apply Itoa_inj.
  apply (split_at_char "c" _ _ (Itoa k) (Itoa k')); auto using Itoa_digits.
Qed.

(** ** The workers the pool creates *)

Lemma mod_next (i N : Z) :
  0 ≤ i → 1 ≤ N →
  (i + 1) mod N = if decide (i mod N + 1 = N) then 0 else i mod N + 1.
Proof.
  intros Hi HN.
  pose proof (Z.mod_pos_bound i N ltac:(lia)) as Hr.
  pose proof (Z.div_mod i N ltac:(lia)) as Hd.
  destruct (decide (i mod N + 1 = N)) as [He|He]; symmetry.
  - apply (Z.mod_unique _ _ (i / N + 1)); lia.
  - apply (Z.mod_unique _ _ (i / N)); lia.
Qed.

Lemma spawned_fresh s os ws k :
  spawned s os ws →
  ws !! mkWorkerID (name (config (b s))) (Z.of_nat (length os)) k = None.
Proof.
  intros [Ho Hm _ _].
  destruct (ws !! _) as [p|] eqn:Hp; [|done].
  destruct (Hm _ _ Hp) as (w & Hw & Hid).
  destruct (Ho _ _ Hw) as (_ & Hid' & _).
  rewrite Hid' in Hid. apply mkWorkerID_inj in Hid; try lia.
  apply lookup_lt_Some in Hw. lia.
Qed.

Lemma spawnLoop_spec k : ∀ s i conn os ws,
  1 ≤ nConns (config (b s)) →
  nConns (config (b s)) ≤ Z.of_nat (length (stubs (b s))) →
  i = Z.of_nat (length os) →
  conn = i mod nConns (config (b s)) →
  spawned s os ws →
  ∃ os' ws', spawnLoop k i conn os ws s = Returns (os', ws') s
           ∧ length os' = (length os + k)%nat
           ∧ spawned s os' ws'.
Proof.
  induction k as [|k IH]; intros s i conn os ws HN Hst Hi Hconn Hsp.
  - exists os, ws. simpl. split; [done|]. split; [lia|done].
  - pose proof (Z.mod_pos_bound i (nConns (config (b s))) ltac:(lia)) as Hr.
    destruct (stubs (b s) !! Z.to_nat conn) as [stb|] eqn:Hstub.
    2:{ apply lookup_ge_None in Hstub. lia. }
    set (w := setActive true
                {| stub := stb; w_mtd := mtd (b s); w_config := config (b s);
                   workerID := mkWorkerID (name (config (b s))) i conn;
                   w_arrayJSONData := arrayJSONData (b s);
                   done := Some make_chan; active := false;
                   reqCount := 0; exited := false |}).
    destruct (IH s (i + 1)
                (if decide (conn + 1 = nConns (config (b s))) then 0 else conn + 1)
                (os ++ [w])
                (<[mkWorkerID (name (config (b s))) i conn := length os]> ws))
      as (os' & ws' & Hrun & Hlen & Hsp'); try done.
    + rewrite length_app. simpl. lia.
    + subst conn. rewrite mod_next by lia. done.
    + pose proof (spawned_fresh s os ws conn Hsp) as Hfresh. rewrite <- Hi in Hfresh.
      destruct Hsp as [Ho Hm Hin Hp]. split.
      * intros j w' Hj. destruct (decide (j < length os)%nat) as [Hlt|Hge].
        { rewrite lookup_app_l in Hj by done. by apply Ho. }
        rewrite lookup_app_r in Hj by lia.
        destruct (j - length os)%nat eqn:Hd; [|by destruct n0].
        injection Hj as <-. assert (j = length os) as -> by lia.
        unfold created. rewrite <- Hi, <- Hconn. subst w. simpl. by rewrite Hstub.
      * intros wid p Hwp.
        destruct (decide (wid = mkWorkerID (name (config (b s))) i conn)) as [->|Hne].
        { rewrite lookup_insert_eq in Hwp. injection Hwp as <-.
          exists w. split; [|done].
          rewrite lookup_app_r by lia. by rewrite Nat.sub_diag. }
        rewrite lookup_insert_ne in Hwp by done.
        destruct (Hm _ _ Hwp) as (w' & Hw' & Hid). exists w'. split; [|done].
        rewrite lookup_app_l; [done|]. by apply lookup_lt_Some in Hw'.
      * intros j w' Hj. destruct (decide (j < length os)%nat) as [Hlt|Hge].
        { rewrite lookup_app_l in Hj by done.
          rewrite lookup_insert_ne; [by apply Hin|].
          destruct (Ho _ _ Hj) as (_ & Hid & _). rewrite Hid, Hi.
          intros Heq. apply mkWorkerID_inj in Heq; lia. }
        rewrite lookup_app_r in Hj by lia.
        destruct (j - length os)%nat eqn:Hd; [|by destruct n0].
        injection Hj as <-. assert (j = length os) as -> by lia.
        subst w. simpl. by rewrite lookup_insert_eq.
      * unfold pointers. rewrite map_to_list_insert by done.
        rewrite fmap_cons. simpl. fold (pointers ws). rewrite Hp.
        rewrite length_app. simpl. rewrite seq_app. simpl.
        apply Permutation_cons_append.
    + exists os', ws'. split.
      { simpl. munfold. unfold index. rewrite decide_True by lia.
        rewrite Hstub. exact Hrun. }
      rewrite Hlen, length_app. simpl. split; [lia|done].
Qed.

(** With [c > 0], at least one connection and a stub per connection, the
    head of [runConstConcurrencyWorkers] returns the pool: [c] workers, the
    map holding each of them once, the quota the integer quotient. *)
Lemma runConstConcurrencyWorkers_launches s :
  0 < c (config (b s)) →
  1 ≤ nConns (config (b s)) →
  nConns (config (b s)) ≤ Z.of_nat (length (stubs (b s))) →
  ∃ p, runConstConcurrencyWorkers s = Returns (inr p) s
     ∧ nReqPerWorker p = wrap64 (Z.quot (n (config (b s))) (c (config (b s))))
     ∧ length (objs p) = Z.to_nat (c (config (b s)))
     ∧ spawned s (objs p) (workers p)
     ∧ errC p = [] ∧ agg_i p = 0%nat ∧ agg_err p = [] ∧ pool_done p = None
     ∧ issued p = 0 ∧ pc p = Select.
Proof.
  intros Hc HN Hst.
  destruct (spawnLoop_spec (Z.to_nat (c (config (b s)))) s 0 0 [] ∅)
    as (os & ws & Hrun & Hlen & Hsp); try done.
  eexists. split.
  { unfold runConstConcurrencyWorkers, go_div. munfold.
    rewrite !decide_False by lia. rewrite Hrun. reflexivity. }
  simpl. split; [done|]. split; [done|]. split; [exact Hsp|]. by repeat split.
Qed.

(** ** What Run_start establishes *)

Lemma dialLoop_val k : ∀ s cs s',
  dialLoop k s = Returns (Val cs) s' →
  cs = conns (b s')
  ∧ length (selems (conns (b s'))) = (length (selems (conns (b s))) + k)%nat
  ∧ config (b s') = config (b s)
  ∧ stubs (b s') = stubs (b s).
Proof.
  induction k as [|k IH]; intros s cs s' Hrun.
  - simpl in Hrun. munfold. injection Hrun as <- <-. repeat split; lia.
  - simpl in Hrun. destruct (newClientConn_true s) as [opts Hn].
    destruct (dialResult (world s) (dials (world s))).
    + rewrite (bind_returns _ _ _ _ _ Hn) in Hrun. by munfold.
    + rewrite (bind_returns _ _ _ _ _ Hn) in Hrun. munfold. simpl in Hrun.
      apply IH in Hrun as (-> & Hlen & Hcfg & Hst).
      rewrite Hlen, Hcfg, Hst. simpl. rewrite length_app. simpl.
      repeat split; lia.
Qed.

Lemma openClientConns_val s cs s' :
  openClientConns s = Returns (Val cs) s' →
  cs = conns (b s')
  ∧ config (b s') = config (b s)
  ∧ stubs (b s') = stubs (b s)
  ∧ nConns (config (b s)) ≤ Z.of_nat (length (selems cs)).
Proof.
  unfold openClientConns. munfold.
  destruct (decide (slen (conns (b s)) = nConns (config (b s)))) as [He|Hne].
  - intros [= <- <-]. rewrite slen_selems in He. repeat split; lia.
  - intros H. apply dialLoop_val in H as (-> & Hlen & Hcfg & Hst).
    repeat split; try done. lia.
Qed.

Lemma stubLoop_spec cc k : ∀ i s,
  (i + k ≤ length (selems cc))%nat →
  stubLoop cc k (Z.of_nat i) s
  = Returns ()
      {| b := set_stubs (stubs (b s) ++ (NewStub <$> take k (drop i (selems cc)))) (b s);
         world := world s |}.
Proof.
  induction k as [|k IH]; intros i s Hik.
  - simpl. munfold. rewrite app_nil_r. by destruct s as [[] ?].
  - simpl. unfold index. munfold. rewrite decide_True by lia. rewrite Nat2Z.id.
    destruct (selems cc !! i) as [x|] eqn:Hx.
    2:{ apply lookup_ge_None in Hx. lia. }
    replace (Z.of_nat i + 1) with (Z.of_nat (S i)) by lia.
    rewrite IH by lia. unfold set_stubs. simpl.
    rewrite <- app_assoc. simpl. by rewrite (drop_S _ _ _ Hx).
Qed.

Lemma Run_start_val s0 s :
  Run_start s0 = Returns (Val ()) s →
  0 ≤ nConns (config (b s0)) →
  config (b s) = config (b s0)
  ∧ stubs (b s)
    = stubs (b s0)
      ++ (NewStub <$> take (Z.to_nat (nConns (config (b s0)))) (selems (conns (b s))))
  ∧ nConns (config (b s0)) ≤ Z.of_nat (length (selems (conns (b s)))).
Proof.
  unfold Run_start. intros Hrun HN.
  destruct (openClientConns s0) as [[cs|e] s1|msg] eqn:Hopen.
  2:{ rewrite (bind_returns _ _ _ _ _ Hopen) in Hrun. by munfold. }
  2:{ by rewrite (bind_panic _ _ _ _ Hopen) in Hrun. }
  rewrite (bind_returns _ _ _ _ _ Hopen) in Hrun.
  apply openClientConns_val in Hopen as (-> & Hcfg & Hst & Hlen).
  munfold. rewrite Hcfg in Hrun.
  rewrite (stubLoop_spec _ _ 0%nat) in Hrun by lia.
  injection Hrun as <-. simpl. rewrite Hst. repeat split; try done.
Qed.

(** ** C5 *)

(** C5: after [Run] has opened the pool and built the stubs, the worker
    created at concurrency index [i] (0 ≤ i < c) holds the stub of
    connection [i mod nConns], and its ID is the optional name prefix
    followed by "g", [i], "c" and [i mod nConns]; the map holds it under
    that ID. *)
Theorem worker_bound_round_robin (s0 s : St) (i : Z) :
  stubs (b s0) = [] →
  Run_start s0 = Returns (Val ()) s →
  1 ≤ nConns (config (b s0)) →
  0 ≤ i < c (config (b s0)) →
  ∃ p w cc,
    runConstConcurrencyWorkers s = Returns (inr p) s
    ∧ objs p !! Z.to_nat i = Some w
    ∧ selems (conns (b s)) !! Z.to_nat (i mod nConns (config (b s0))) = Some cc
    ∧ stub w = NewStub cc
    ∧ workerID w
      = (if decide (name (config (b s0)) = EmptyString) then EmptyString
         else name (config (b s0)) +:+ ":")
        +:+ "g" +:+ Itoa i +:+ "c" +:+ Itoa (i mod nConns (config (b s0)))
    ∧ workers p !! workerID w = Some (Z.to_nat i).
Proof.
  intros Hfresh Hrun HN Hi.
  destruct (Run_start_val _ _ Hrun ltac:(lia)) as (Hcfg & Hst & Hlen).
  rewrite Hfresh in Hst. simpl in Hst.
  destruct (runConstConcurrencyWorkers_launches s) as (p & Hp & _ & Hl & Hsp & _).
  { rewrite Hcfg. lia. }
  { rewrite Hcfg. lia. }
  { rewrite Hcfg, Hst, length_fmap, length_take. lia. }
  destruct (objs p !! Z.to_nat i) as [w|] eqn:Hw.
  2:{ apply lookup_ge_None in Hw. rewrite Hcfg in Hl. lia. }
  destruct (sp_objs _ _ _ Hsp _ _ Hw) as (Hstub & Hid & _).
  rewrite Hcfg, Z2Nat.id in Hstub, Hid by lia.
  rewrite Hst, list_lookup_fmap in Hstub.
  destruct (take _ _ !! _) as [cc|] eqn:Hcc; [|done].
  injection Hstub as Hstub.
  exists p, w, cc. split; [done|]. split; [done|].
  split. { apply lookup_take_Some in Hcc. tauto. }
  split; [done|]. split.
  - rewrite Hid. unfold mkWorkerID.
    destruct (name (config (b s0))) as [|a nm]; simpl; [done|].
    by rewrite append_assoc.
  - by apply (sp_in _ _ _ Hsp).
Qed.

Lemma worker_bound_round_robin_witness :
  ∃ p w cc,
    runConstConcurrencyWorkers (readyState (sampleConfig 100 10 5 "close"))
    = Returns (inr p) (readyState (sampleConfig 100 10 5 "close"))
    ∧ objs p !! Z.to_nat 7 = Some w
    ∧ selems (conns (b (readyState (sampleConfig 100 10 5 "close"))))
        !! Z.to_nat (7 mod 5) = Some cc
    ∧ stub w = NewStub cc
    ∧ workerID w = EmptyString +:+ "g" +:+ Itoa 7 +:+ "c" +:+ Itoa (7 mod 5)
    ∧ workers p !! workerID w = Some (Z.to_nat 7).
Proof.
  apply (worker_bound_round_robin
           (freshState (sampleConfig 100 10 5 "close") [])
           (readyState (sampleConfig 100 10 5 "close")) 7).
  - reflexivity.
  - vm_compute. reflexivity.
  - simpl. lia.
  - simpl. lia.
Defined.

(** ** The stop channels of the workers *)







(** Case analysis on a step, with the hypotheses of its rule named. *)
Ltac pool_cases Hstep :=
  let x := fresh "x" in
  let y := fresh "y" in
  let Hx := fresh "Hx" in
  let Hy := fresh "Hy" in
  match type of Hstep with
  | pool_step ?a ?b =>
      remember a as x eqn:Hx; remember b as y eqn:Hy;
      destruct Hstep as
        [ ? ? i w ev w' Hobj Hrun
        | ? ? e rest HerrC Hagg
        | ? ? Hagg Hnone
        | ? ? todo Hpc Hperm
        | ? ? i todo w Hpc Hobj Hoff
        | ? ? i todo w Hpc Hobj Hon Hroom
        | ? ? i todo w ch Hpc Hobj Hon Hch Hclosed
        | ? ? Hpc
        | ? ? err Hpc Hdone ];
      simplify_eq
  end.




Lemma record_event_objs ev p : objs (record_event ev p) = objs p.
Proof. by destruct ev. Qed.


Lemma closeWorkers_length ptrs os : length (closeWorkers ptrs os) = length os.
Proof.
  induction ptrs as [|q ptrs IH]; simpl; [done|]. by rewrite length_alter.
Qed.

Lemma pool_step_length stop p stop' p' :
  pool_step (stop, p) (stop', p') → length (objs p') = length (objs p).
Proof.
  intros Hstep. pool_cases Hstep; simpl;
    rewrite ?record_event_objs; simpl;
    rewrite ?length_insert, ?closeWorkers_length; done.
Qed.




(** ** C6 *)



(** ** Counting calls *)

Lemma total_insert f l i w w' :
  l !! i = Some w → total f (<[i:=w']> l) = total f l - f w + f w'.
Proof.
  revert i. induction l as [|x l IH]; intros [|i] H; simpl in *; try done.
  - injection H as ->. lia.
  - rewrite (IH _ H). lia.
Qed.

Lemma total_alter f g l i :
  (∀ w, f (g w) = f w) → total f (alter g i l) = total f l.
Proof.
  intros Hg. revert i. induction l as [|x l IH]; intros [|i]; simpl; try done.
  - by rewrite Hg.
  - f_equal. apply IH.
Qed.

Lemma total_closeWorkers f ptrs os :
  (∀ w, f (closeOne w) = f w) → total f (closeWorkers ptrs os) = total f os.
Proof.
  intros Hf. induction ptrs as [|q ptrs IH]; simpl; [done|].
  by rewrite total_alter.
Qed.

Lemma total_const f l m :
  (∀ i w, l !! i = Some w → f w = m) → total f l = m * Z.of_nat (length l).
Proof.
  induction l as [|x l IH]; intros H; simpl; [lia|].
  rewrite (H 0%nat x eq_refl), IH; [lia|].
  intros i w Hw. by apply (H (S i)).
Qed.

Lemma total_le f l :
  (∀ i w, l !! i = Some w → f w ≤ 1) → total f l ≤ Z.of_nat (length l).
Proof.
  induction l as [|x l IH]; intros H; simpl; [lia|].
  pose proof (H 0%nat x eq_refl).
  assert (total f l ≤ Z.of_nat (length l)); [|lia].
  apply IH. intros i w Hw. by apply (H (S i)).
Qed.

Lemma total_full f l :
  (∀ i w, l !! i = Some w → f w ≤ 1) →
  Z.of_nat (length l) ≤ total f l →
  ∀ i w, l !! i = Some w → f w = 1.
Proof.
  induction l as [|x l IH]; intros H Hge i w Hw; [done|]. simpl in Hge.
  pose proof (H 0%nat x eq_refl) as Hx.
  assert (Hl : total f l ≤ Z.of_nat (length l)).
  { apply total_le. intros j v Hv. by apply (H (S j)). }
  destruct i as [|i]; simpl in Hw.
  - injection Hw as <-. lia.
  - apply (IH (λ j v Hv, H (S j) v Hv) ltac:(lia) i w Hw).
Qed.

Lemma ended_le w : ended w ≤ 1.
Proof. unfold ended. destruct (exited w); lia. Qed.

Lemma closeOne_goroutine w :
  reqCount (closeOne w) = reqCount w ∧ exited (closeOne w) = exited w.
Proof. unfold closeOne. by destruct (done w). Qed.

(** When the aggregator has heard from every worker, every worker has
    ended. *)
Lemma count_inv_all_ended q stop p :
  count_inv q stop p → agg_i p = size (workers p) →
  ∀ i w, objs p !! i = Some w → exited w = true.
Proof.
  intros Hinv Hagg i w Hw.
  assert (He : ended w = 1).
  { apply (total_full ended (objs p)) with i; [intros; apply ended_le| |done].
    rewrite (ci_ended _ _ _ Hinv), Hagg, (ci_size _ _ _ Hinv). lia. }
  unfold ended in He. by destruct (exited w).
Qed.

Lemma count_inv_step q stop p stop' p' :
  0 ≤ q →
  pool_step (stop, p) (stop', p') → count_inv q stop p → count_inv q stop' p'.
Proof.
  intros Hq Hstep Hinv.
  pose proof (ci_pc _ _ _ Hinv) as Hpcs.
  pool_cases Hstep.
  - (* a worker runs *)
    destruct (ci_count _ _ _ Hinv _ _ Hobj) as (Hrange & Hex).
    destruct Hrun as [w Hrunning Hcont|w clear e Hrunning Hcont|w ch e Hrunning Hch Hwake].
    + (* a call *)
      unfold continue in Hcont. apply Z.ltb_lt in Hcont.
      rewrite (ci_quota _ _ _ Hinv) in Hcont.
      destruct Hinv. constructor; simpl; try done.
      * intros j v ch Hj Hd.
        apply list_lookup_insert_Some in Hj as [(-> & <- & _)|[_ Hj]]; eauto.
      * intros j v Hj.
        apply list_lookup_insert_Some in Hj as [(-> & <- & _)|[_ Hj]]; eauto.
        simpl. split; [lia|done].
      * rewrite (total_insert _ _ _ _ _ Hobj). simpl. lia.
      * rewrite (total_insert _ _ _ _ _ Hobj). unfold ended at 2 3. simpl.
        rewrite Hrunning. lia.
      * by rewrite length_insert.
    + (* the quota is reached *)
      unfold continue in Hcont. apply Z.ltb_ge in Hcont.
      rewrite (ci_quota _ _ _ Hinv) in Hcont.
      destruct Hinv. constructor; simpl; try done.
      * intros j v ch Hj Hd.
        apply list_lookup_insert_Some in Hj as [(-> & <- & _)|[_ Hj]]; eauto.
      * intros j v Hj.
        apply list_lookup_insert_Some in Hj as [(-> & <- & _)|[_ Hj]]; eauto.
        simpl. split; [lia|]. intros _. lia.
      * rewrite (total_insert _ _ _ _ _ Hobj). simpl. lia.
      * rewrite (total_insert _ _ _ _ _ Hobj). unfold ended at 2 3. simpl.
        rewrite Hrunning, length_app. simpl. lia.
      * by rewrite length_insert.
    + (* woken up by its channel: only possible once the pool returned *)
      exfalso.
      destruct (ci_chan _ _ _ Hinv _ _ _ Hobj Hch) as [Hpend Hcl].
      destruct Hwake as [?|Hclosed]; [lia|].
      destruct (Hcl Hclosed) as [res Hres].
      pose proof (ci_done _ _ _ Hinv (ci_ret _ _ _ Hinv _ Hres)) as Hagg.
      pose proof (count_inv_all_ended _ _ _ Hinv Hagg _ _ Hobj). congruence.
  - (* the aggregator receives *)
    destruct Hinv. constructor; simpl; try done.
    + rewrite ci_ended0, HerrC. simpl. lia.
    + intros Hd. specialize (ci_done0 Hd). lia.
  - (* the aggregator sends *)
    destruct Hinv. constructor; simpl; try done.
  - (* no stop signal is pending *)
    by destruct Hinv.
  - destruct Hpcs as [?|[? ?]]; congruence.
  - destruct Hpcs as [?|[? ?]]; congruence.
  - destruct Hpcs as [?|[? ?]]; congruence.
  - destruct Hpcs as [?|[? ?]]; congruence.
  - (* the pool returns *)
    destruct Hinv. constructor; simpl; try done.
    + right. eauto.
    + intros j v ch Hj Hd. split; [|eauto].
      clear -Hj Hd ci_chan0.
      revert v ch Hj Hd. generalize (pointers (workers p)) as ptrs.
      induction ptrs as [|k ptrs IH]; intros v ch Hj Hd; simpl in Hj.
      { by destruct (ci_chan0 _ _ _ Hj Hd). }
      destruct (decide (k = j)) as [->|Hne].
      * rewrite list_lookup_alter_eq in Hj.
        destruct (closeWorkers ptrs (objs p) !! j) as [v1|] eqn:Hv1; [|done].
        injection Hj as <-. unfold closeOne in Hd.
        destruct (done v1) as [ch1|] eqn:Hd1; [|by rewrite Hd1 in Hd].
        simpl in Hd. injection Hd as <-. simpl. by apply (IH v1).
      * rewrite list_lookup_alter_ne in Hj by done. by apply (IH v).
    + intros j v Hj.
      clear -Hj ci_count0.
      revert v Hj. generalize (pointers (workers p)) as ptrs.
      induction ptrs as [|k ptrs IH]; intros v Hj; simpl in Hj.
      { by apply (ci_count0 j). }
      destruct (decide (k = j)) as [->|Hne].
      * rewrite list_lookup_alter_eq in Hj.
        destruct (closeWorkers ptrs (objs p) !! j) as [v1|] eqn:Hv1; [|done].
        injection Hj as <-. destruct (closeOne_goroutine v1) as [-> ->].
        by apply IH.
      * rewrite list_lookup_alter_ne in Hj by done. by apply IH.
    + rewrite total_closeWorkers; [done|]. intros w. apply closeOne_goroutine.
    + rewrite total_closeWorkers; [done|]. intros w. unfold ended.
      by destruct (closeOne_goroutine w) as [_ ->].
    + by rewrite closeWorkers_length.
    + intros res _. congruence.
Qed.

Lemma count_inv_steps q x y :
  0 ≤ q → rtc pool_step x y → count_inv q x.1 x.2 → count_inv q y.1 y.2.
Proof.
  intros Hq. induction 1 as [|[] [] [] Hstep _ IH]; [done|].
  intros Hinv. apply IH. by apply (count_inv_step _ _ _ _ _ Hq Hstep).
Qed.

(** *** A run without a stop signal completes *)

Lemma total_bound f l m :
  (∀ i w, l !! i = Some w → f w ≤ m) → total f l ≤ m * Z.of_nat (length l).
Proof.
  induction l as [|x l IH]; intros H; simpl; [lia|].
  pose proof (H 0%nat x eq_refl).
  assert (total f l ≤ m * Z.of_nat (length l)); [|lia].
  apply IH. intros i w Hw. by apply (H (S i)).
Qed.

Lemma remaining_nonneg q stop p : count_inv q stop p → 0 ≤ remaining q p.
Proof.
  intros Hinv. unfold remaining.
  assert (total reqCount (objs p) ≤ q * Z.of_nat (length (objs p))).
  { apply total_bound. intros i w Hw. destruct (ci_count _ _ _ Hinv _ _ Hw). lia. }
  assert (total ended (objs p) ≤ Z.of_nat (length (objs p))).
  { apply total_le. intros. apply ended_le. }
  pose proof (ci_ended _ _ _ Hinv). pose proof (ci_size _ _ _ Hinv).
  destruct (pool_done p); lia.
Qed.

(** While the pool has not returned, some goroutine can move, and the move
    either is the pool's return or brings it nearer. *)
Lemma pool_progress q p :
  0 ≤ q → count_inv q 0 p → pc p = Select →
  ∃ p', pool_step (0%nat, p) (0%nat, p')
      ∧ ((∃ res, pc p' = Returned res)
         ∨ (pc p' = Select ∧ remaining q p' = remaining q p - 1)).
Proof.
  intros Hq Hinv Hpc.
  destruct (decide (Forall (λ w, exited w = true) (objs p))) as [Hall|Hsome].
  - (* every worker has ended *)
    assert (Hended : total ended (objs p) = Z.of_nat (length (objs p))).
    { replace (Z.of_nat (length (objs p))) with (1 * Z.of_nat (length (objs p))) by lia.
      apply total_const. intros i w Hw.
      rewrite Forall_lookup in Hall. unfold ended. by rewrite (Hall _ _ Hw). }
    pose proof (ci_ended _ _ _ Hinv) as He. pose proof (ci_size _ _ _ Hinv) as Hsz.
    destruct (pool_done p) as [res|] eqn:Hdone.
    + eexists. split; [by apply (P_done 0 p res)|]. left. by exists res.
    + destruct (errC p) as [|e rest] eqn:HerrC; simpl in He.
      * eexists. split; [apply A_send; [lia|done]|].
        right. split; [done|]. unfold remaining. simpl. rewrite Hdone. lia.
      * eexists. split; [apply (A_recv 0 p e rest); [done|lia]|].
        right. split; [done|]. unfold remaining. simpl. rewrite Hdone. lia.
  - (* some worker is still running *)
    apply not_Forall_Exists in Hsome; [|apply _].
    apply Exists_exists in Hsome as (w & Hin & Hrunning).
    apply list_elem_of_lookup in Hin as [i Hw].
    assert (Hex : exited w = false) by (by apply not_true_is_false).
    destruct (ci_count _ _ _ Hinv _ _ Hw) as (Hrange & _).
    destruct (continue (nReqPerWorker p) (reqCount w)) eqn:Hcont.
    + eexists. split; [apply (W_step 0 p i w Called); [done|by apply RW_call]|].
      right. split; [done|]. unfold remaining. simpl.
      rewrite length_insert, !(total_insert _ _ _ _ _ Hw). unfold ended. simpl.
      rewrite Hex. lia.
    + eexists. split;
        [apply (W_step 0 p i w (Exited None)); [done|by apply (RW_quota _ _ false)]|].
      right. split; [done|]. unfold remaining. simpl.
      rewrite length_insert, !(total_insert _ _ _ _ _ Hw). unfold ended. simpl.
      rewrite Hex. lia.
Qed.

Lemma pool_completes q : ∀ (m : nat) p,
  0 ≤ q → count_inv q 0 p → pc p = Select → remaining q p ≤ Z.of_nat m →
  ∃ p' res, rtc pool_step (0%nat, p) (0%nat, p') ∧ pc p' = Returned res.
Proof.
  induction m as [|m IH]; intros p Hq Hinv Hpc Hm;
    destruct (pool_progress q p Hq Hinv Hpc) as (p1 & Hstep & [[res Hres]|[Hsel Hrem]]).
  - exists p1, res. split; [by apply rtc_once|done].
  - pose proof (remaining_nonneg _ _ _ (count_inv_step _ _ _ _ _ Hq Hstep Hinv)). lia.
  - exists p1, res. split; [by apply rtc_once|done].
  - destruct (IH p1 Hq (count_inv_step _ _ _ _ _ Hq Hstep Hinv) Hsel ltac:(lia))
      as (p' & res & Hsteps & Hres).
    exists p', res. split; [by eapply rtc_l|done].
Qed.

(** ** C4 *)

Lemma pool_steps_length x y :
  rtc pool_step x y → length (objs y.2) = length (objs x.2).
Proof.
  induction 1 as [|[] [] [] Hstep _ IH]; [done|].
  rewrite IH. by apply (pool_step_length _ _ _ _ Hstep).
Qed.

Lemma wrap64_small z : - 2 ^ 63 ≤ z < 2 ^ 63 → wrap64 z = z.
Proof. intros Hz. unfold wrap64. rewrite Z.mod_small; lia. Qed.

Lemma pointers_size (ws : gmap string nat) (k : nat) :
  pointers ws ≡ₚ seq 0 k → size ws = k.
Proof.
  intros Hp. apply Permutation_length in Hp.
  unfold pointers in Hp. rewrite length_fmap, length_seq in Hp.
  by rewrite <- Hp, length_map_to_list.
Qed.

(** C4: with a request count [n ≥ 0] and [c > 0], once [Run] has opened the
    pool the worker pool starts with the quota [n / c] (the floor), the
    continuation predicate of every worker holds exactly for the counts
    below it, a run without stop signal can complete, and every such run
    that completes has issued [c * (n / c)] calls, [n / c] by each worker:
    the [n mod c] remaining requests are not issued. *)
Theorem constant_quota_total_calls (s0 s : St) :
  stubs (b s0) = [] →
  Run_start s0 = Returns (Val ()) s →
  1 ≤ nConns (config (b s0)) →
  0 ≤ n (config (b s0)) < 2 ^ 63 →
  0 < c (config (b s0)) →
  ∃ p0,
    runConstConcurrencyWorkers s = Returns (inr p0) s
    ∧ nReqPerWorker p0 = n (config (b s0)) / c (config (b s0))
    ∧ (∀ k, continue (nReqPerWorker p0) k = true
            ↔ k < n (config (b s0)) / c (config (b s0)))
    ∧ (∃ p res, rtc pool_step (0%nat, p0) (0%nat, p) ∧ pc p = Returned res)
    ∧ (∀ stop p res,
         rtc pool_step (0%nat, p0) (stop, p) →
         pc p = Returned res →
         issued p = c (config (b s0)) * (n (config (b s0)) / c (config (b s0)))
         ∧ n (config (b s0)) - issued p = n (config (b s0)) mod c (config (b s0))
         ∧ ∀ i w, objs p !! i = Some w →
                  reqCount w = n (config (b s0)) / c (config (b s0))).
Proof.
  intros Hfresh Hrun HN Hn Hc.
  destruct (Run_start_val _ _ Hrun ltac:(lia)) as (Hcfg & Hst & Hlen).
  rewrite Hfresh in Hst. simpl in Hst.
  destruct (runConstConcurrencyWorkers_launches s)
    as (p0 & Hp0 & Hq & Hl & Hsp & HerrC & Hagg & _ & Hdone & Hiss & Hpc).
  { rewrite Hcfg. lia. }
  { rewrite Hcfg. lia. }
  { rewrite Hcfg, Hst, length_fmap, length_take. lia. }
  rewrite Hcfg in Hq, Hl.
  set (q := n (config (b s0)) / c (config (b s0))) in *.
  assert (Hq0 : 0 ≤ q) by (apply Z.div_pos; lia).
  assert (Hqn : q ≤ n (config (b s0))).
  { apply Z.div_le_upper_bound; [lia|]. nia. }
  assert (Hquota : nReqPerWorker p0 = q).
  { rewrite Hq, Z.quot_div_nonneg by lia. apply wrap64_small. fold q. lia. }
  assert (Hinv0 : count_inv q 0 p0).
  { constructor; try done.
    - by left.
    - intros i w ch Hw Hd. destruct (sp_objs _ _ _ Hsp _ _ Hw) as (_ & _ & Hd' & _).
      rewrite Hd' in Hd. by injection Hd as <-.
    - intros i w Hw. destruct (sp_objs _ _ _ Hsp _ _ Hw) as (_ & _ & _ & _ & Hr & He).
      rewrite Hr, He. split; [lia|done].
    - rewrite Hiss. symmetry.
      replace 0 with (0 * Z.of_nat (length (objs p0))) by lia.
      apply total_const. intros i w Hw.
      by destruct (sp_objs _ _ _ Hsp _ _ Hw) as (_ & _ & _ & _ & Hr & _).
    - rewrite HerrC, Hagg. simpl.
      change (Z.of_nat 0 + Z.of_nat 0) with 0.
      replace 0 with (0 * Z.of_nat (length (objs p0))) by lia.
      apply total_const. intros i w Hw. unfold ended.
      by destruct (sp_objs _ _ _ Hsp _ _ Hw) as (_ & _ & _ & _ & _ & ->).
    - apply pointers_size, Hsp.
    - intros res. by rewrite Hpc. }
  exists p0. split; [done|]. split; [done|]. split.
  { intros k. rewrite Hquota. unfold continue. apply Z.ltb_lt. }
  split.
  { apply (pool_completes q (Z.to_nat (remaining q p0))); try done.
    pose proof (remaining_nonneg _ _ _ Hinv0). lia. }
  intros stop p res Hsteps Hres.
  pose proof (count_inv_steps q _ _ Hq0 Hsteps Hinv0) as Hinv. simpl in Hinv.
  pose proof (ci_done _ _ _ Hinv (ci_ret _ _ _ Hinv _ Hres)) as Hall.
  pose proof (count_inv_all_ended _ _ _ Hinv Hall) as Hended.
  assert (Hcount : ∀ i w, objs p !! i = Some w → reqCount w = q).
  { intros i w Hw. destruct (ci_count _ _ _ Hinv _ _ Hw) as [_ He].
    apply He, (Hended i w Hw). }
  assert (Hlenp : length (objs p) = Z.to_nat (c (config (b s0)))).
  { rewrite <- Hl. apply (pool_steps_length _ _ Hsteps). }
  assert (Hissued : issued p = c (config (b s0)) * q).
  { rewrite (ci_issued _ _ _ Hinv), (total_const _ _ q Hcount), Hlenp. lia. }
  split; [done|]. split; [|done].
  rewrite Hissued. unfold q. rewrite Z.mod_eq by lia. lia.
Qed.

Lemma constant_quota_total_calls_witness :
  ∃ p0,
    runConstConcurrencyWorkers (readyState (sampleConfig 107 10 5 "close"))
    = Returns (inr p0) (readyState (sampleConfig 107 10 5 "close"))
    ∧ nReqPerWorker p0 = 107 / 10
    ∧ (∀ k, continue (nReqPerWorker p0) k = true ↔ k < 107 / 10)
    ∧ (∃ p res, rtc pool_step (0%nat, p0) (0%nat, p) ∧ pc p = Returned res)
    ∧ (∀ stop p res,
         rtc pool_step (0%nat, p0) (stop, p) →
         pc p = Returned res →
         issued p = 10 * (107 / 10)
         ∧ 107 - issued p = 107 mod 10
         ∧ ∀ i w, objs p !! i = Some w → reqCount w = 107 / 10).
Proof.
  apply (constant_quota_total_calls
           (freshState (sampleConfig 107 10 5 "close") [])
           (readyState (sampleConfig 107 10 5 "close"))).
  - reflexivity.
  - vm_compute. reflexivity.
  - simpl. lia.
  - simpl. lia.
  - simpl. lia.
Defined.

(** ** C7 *)

Lemma stopPolicy_returns s :
  ∃ s', stopPolicy s = Returns () s'
      ∧ config (b s') = config (b s)
      ∧ (zstop (config (b s)) = "close" →
         conns (b s') = None
         ∧ handlers (b s') = handlers (b s)
         ∧ events (world s')
           = events (world s) ++ (Closed ∘ conn_id <$> selems (conns (b s))))
      ∧ (zstop (config (b s)) = "ignore" →
         conns (b s') = None
         ∧ handlers (b s') = (Ignore true <$> handlers (b s))
         ∧ events (world s')
           = events (world s) ++ (Closed ∘ conn_id <$> selems (conns (b s))))
      ∧ (zstop (config (b s)) ≠ "close" → zstop (config (b s)) ≠ "ignore" → s' = s).
Proof.
  unfold stopPolicy. munfold.
  destruct (decide (zstop (config (b s)) = "close")) as [Hc|Hc].
  - destruct (closeClientConns_returns s) as (s' & Hr & Hn & He & Hh & _ & Hcfg).
    exists s'. rewrite Hr. split; [done|]. split; [done|].
    split; [by intros _|]. split; [|by intros []].
    intros Hi. rewrite Hc in Hi. discriminate.
  - destruct (decide (zstop (config (b s)) = "ignore")) as [Hi|Hi].
    + match goal with |- context [closeClientConns ?s1] =>
        destruct (closeClientConns_returns s1) as (s' & Hr & Hn & He & Hh & _ & Hcfg)
      end.
      exists s'. rewrite Hr. simpl in *. split; [done|]. split; [done|].
      split; [by intros []%Hc|]. split; [by intros _|]. by intros _ [].
    + exists s. split; [done|]. split; [done|].
      split; [by intros []%Hc|]. split; [by intros []%Hi|]. done.
Qed.

(** C7: when [Run] takes a stop request while its stop channel has room, it
    records the reason, puts one value into the pool's stop channel and
    applies the policy: "close" closes every connection of the pool and
    clears it; "ignore" sets the Ignore flag of every tap and then does the
    same; any other value leaves the Requester and the network as they
    were.  The loop is back in its [select] afterwards. *)
Theorem stop_request_applies_policy (reason : StopReason) (rs : RunState) :
  rpc rs = InSelect →
  r_stop rs = 0%nat →
  ∃ rs',
    handleStop reason rs = Some rs'
    ∧ run_step rs (EvStopRequest reason) (recvStop reason rs)
    ∧ run_step (recvStop reason rs) EvStopForward rs'
    ∧ stopReason rs' = reason
    ∧ r_stop rs' = 1%nat
    ∧ rpc rs' = InSelect
    ∧ r_done rs' = r_done rs
    ∧ goroutine rs' = goroutine rs
    ∧ (zstop (config (b (st rs))) = "close" →
       conns (b (st rs')) = None
       ∧ handlers (b (st rs')) = handlers (b (st rs))
       ∧ events (world (st rs'))
         = events (world (st rs))
           ++ (Closed ∘ conn_id <$> selems (conns (b (st rs)))))
    ∧ (zstop (config (b (st rs))) = "ignore" →
       conns (b (st rs')) = None
       ∧ handlers (b (st rs')) = (Ignore true <$> handlers (b (st rs)))
       ∧ Forall (λ h, ignore h = true) (handlers (b (st rs')))
       ∧ events (world (st rs'))
         = events (world (st rs))
           ++ (Closed ∘ conn_id <$> selems (conns (b (st rs)))))
    ∧ (zstop (config (b (st rs))) ≠ "close" →
       zstop (config (b (st rs))) ≠ "ignore" →
       st rs' = st rs).
Proof.
  intros Hpc Hroom.
  destruct (stopPolicy_returns (st rs)) as (s' & Hr & _ & Hclose & Hignore & Helse).
  assert (Hsend : sendStop (recvStop reason rs)
                  = Some {| st := s'; stopReason := reason; r_stop := 1;
                            r_done := r_done rs; goroutine := goroutine rs;
                            rpc := InSelect |}).
  { unfold sendStop. simpl. rewrite Hroom, decide_True by lia. by rewrite Hr. }
  eexists. split; [exact Hsend|].
  split; [by apply R_stop_request|].
  split; [by apply R_stop_forward|].
  simpl. do 5 (split; [done|]).
  split; [exact Hclose|]. split; [|exact Helse].
  intros Hi. destruct (Hignore Hi) as (Hc & Hh & Hev).
  repeat split; try done.
  rewrite Hh. apply Forall_fmap, Forall_true. done.
Qed.

Lemma stop_request_applies_policy_witness :
  ∃ rs',
    handleStop (ReasonOther "cancel") (loopState "ignore") = Some rs'
    ∧ stopReason rs' = ReasonOther "cancel"
    ∧ r_stop rs' = 1%nat
    ∧ conns (b (st rs')) = None
    ∧ ignore <$> handlers (b (st rs')) = [true; true; true]
    ∧ closed_conns (world (st rs')) = [0; 1; 2]%nat.
Proof.
  destruct (stop_request_applies_policy (ReasonOther "cancel") (loopState "ignore"))
    as (rs' & Hh & _ & _ & Hreason & Hstop & _ & _ & _ & _ & Hignore & _).
  - reflexivity.
  - reflexivity.
  - exists rs'. destruct (Hignore eq_refl) as (Hc & Hhs & _ & Hev).
    repeat split; try done.
    + rewrite Hhs. vm_compute. reflexivity.
    + unfold closed_conns. rewrite Hev. vm_compute. reflexivity.
Defined.

(** ** C10 *)

(** A finished or crashed [Run] takes no step. *)
Lemma run_step_running rs ev rs' : run_step rs ev rs' → running rs.
Proof. unfold running. destruct 1; auto. Qed.

(** The step that makes [Run] return is the one taking the pool's error
    from [done]. *)
Lemma run_step_finishes rs ev rs' reason res :
  run_step rs ev rs' →
  rpc rs' = Finished reason res →
  ev = EvDone ∧ r_done rs = Some res ∧ reason = stopReason rs.
Proof.
  intros Hstep Hfin.
  pose proof (run_step_running _ _ _ Hstep) as Hrun.
  destruct Hstep as [rs p s' Hr Hg Hc|rs e s' Hr Hg Hc|rs msg Hr Hg Hc
                    |rs p stop' p' Hr Hg Hp|rs p e Hr Hg Hp|rs p Hr Hg Hp
                    |rs why Hr|rs rs' Hr Hs|rs e Hr Hd];
    simpl in Hfin; try (destruct Hrun; congruence); try done.
  - unfold sendStop in Hs. destruct (decide (r_stop rs < 1)%nat); [|done].
    destruct (stopPolicy (st rs)); simplify_eq; done.
  - unfold recvDone in Hfin. destruct (closeClientConns (st rs)); simpl in Hfin; [|done].
    by simplify_eq.
Qed.

Lemma run_step_done_inv rs ev rs' : run_step rs ev rs' → done_inv rs → done_inv rs'.
Proof.
  unfold done_inv.
  destruct 1 as [rs p s' Hr Hg Hc|rs e s' Hr Hg Hc|rs msg Hr Hg Hc
                |rs p stop' p' Hr Hg Hp|rs p e Hr Hg Hp|rs p Hr Hg Hp
                |rs why Hr|rs rs' Hr Hs|rs e Hr Hd];
    simpl; intros Hinv Hd'; try done; try (specialize (Hinv Hd'); congruence).
  - unfold sendStop in Hs. destruct (decide (r_stop rs < 1)%nat); [|done].
    destruct (stopPolicy (st rs)); simplify_eq; simpl in *; auto.
  - unfold recvDone in Hd'. by destruct (closeClientConns (st rs)).
Qed.

Lemma run_step_skipped_inv rs ev rs' :
  run_step rs ev rs' → skipped_inv rs → skipped_inv rs'.
Proof.
  intros Hstep (Hg & Hd & Hpc).
  assert (Hnot : ∀ reason res, rpc rs' ≠ Finished reason res).
  { intros reason res Hfin.
    destruct (run_step_finishes _ _ _ _ _ Hstep Hfin) as (_ & ? & _). congruence. }
  destruct Hstep as [rs p s' Hr Hg' Hc|rs e s' Hr Hg' Hc|rs msg Hr Hg' Hc
                    |rs p stop' p' Hr Hg' Hp|rs p e Hr Hg' Hp|rs p Hr Hg' Hp
                    |rs why Hr|rs rs' Hr Hs|rs e Hr Hd'];
    try congruence; try done.
  unfold sendStop in Hs. destruct (decide (r_stop rs < 1)%nat); [|done].
  split; [|split; [|done]];
    destruct (stopPolicy (st rs)); simplify_eq; done.
Qed.

Lemma run_steps_inv (P : RunState → Prop) rs rs' :
  (∀ x ev y, run_step x ev y → P x → P y) →
  rtc run_next rs rs' → P rs → P rs'.
Proof.
  intros Hstep. induction 1 as [|x y z [ev Hxy] _ IH]; [done|].
  intros HP. apply IH. by apply (Hstep _ _ _ Hxy).
Qed.

(** C10: in every state [Run]'s loop reaches, a step makes [Run] return
    only by receiving the pool's error from [done], which is there only
    after the pool goroutine delivered it; a stop request, forwarded or
    not, leaves [Run] in its loop; and when the strategy and schedule are
    not the constant pair the goroutine sends nothing and [Run] never
    returns. *)
Theorem Run_returns_only_on_pool_completion (s : St) (rs : RunState) :
  rtc run_next (Run_loop s) rs →
  (∀ ev rs' reason res,
     run_step rs ev rs' → rpc rs' = Finished reason res →
     ev = EvDone ∧ r_done rs = Some res ∧ goroutine rs = Delivered)
  ∧ (∀ ev rs' reason,
       run_step rs ev rs' → ev = EvStopRequest reason ∨ ev = EvStopForward →
       running rs' ∨ ∃ msg, rpc rs' = RunCrashed msg)
  ∧ (launches (config (b s)) = false →
     goroutine rs = Skipped ∧ r_done rs = None
     ∧ ∀ reason res, rpc rs ≠ Finished reason res).
Proof.
  intros Hreach. split; [|split].
  - intros ev rs' reason res Hstep Hfin.
    destruct (run_step_finishes _ _ _ _ _ Hstep Hfin) as (-> & Hd & _).
    repeat split; try done.
    apply (run_steps_inv done_inv _ _ run_step_done_inv Hreach).
    + intros Hd'. by destruct Hd'.
    + by rewrite Hd.
  - intros ev rs' reason Hstep Hev.
    destruct (rpc rs') as [| |why res|msg] eqn:Hpc; unfold running; eauto.
    destruct (run_step_finishes _ _ _ _ _ Hstep Hpc) as (-> & _).
    by destruct Hev.
  - intros Hl.
    apply (run_steps_inv skipped_inv _ _ run_step_skipped_inv Hreach).
    unfold skipped_inv, Run_loop. simpl. rewrite Hl. done.
Qed.

Lemma Run_returns_only_on_pool_completion_witness :
  goroutine (recvStop (ReasonOther "cancel") (Run_loop (readyState steppedConfig)))
  = Skipped
  ∧ r_done (recvStop (ReasonOther "cancel") (Run_loop (readyState steppedConfig)))
    = None
  ∧ ∀ reason res,
      rpc (recvStop (ReasonOther "cancel") (Run_loop (readyState steppedConfig)))
      ≠ Finished reason res.
Proof.
  apply (Run_returns_only_on_pool_completion (readyState steppedConfig)).
  - apply rtc_once. exists (EvStopRequest (ReasonOther "cancel")).
    apply R_stop_request. reflexivity.
  - reflexivity.
Defined.

(** ** C1 *)

Lemma go_div_zero s :
  c (config (b s)) = 0 →
  runConstConcurrencyWorkers s = Panic "runtime error: integer divide by zero".
Proof.
  intros Hc. unfold runConstConcurrencyWorkers, go_div. munfold. rewrite Hc.
  by rewrite decide_True.
Qed.

Lemma run_step_zero_inv rs ev rs' : run_step rs ev rs' → zero_inv rs → zero_inv rs'.
Proof.
  intros Hstep (Hg & Hd & Hc & Hpc).
  pose proof (go_div_zero _ Hc) as Hpanic.
  assert (Hnot : ∀ reason res, rpc rs' ≠ Finished reason res).
  { intros reason res Hfin.
    destruct (run_step_finishes _ _ _ _ _ Hstep Hfin) as (_ & ? & _). congruence. }
  destruct Hstep as [rs p s' Hr Hg' Hrun|rs e s' Hr Hg' Hrun|rs msg Hr Hg' Hrun
                    |rs p stop' p' Hr Hg' Hp|rs p e Hr Hg' Hp|rs p Hr Hg' Hp
                    |rs why Hr|rs rs' Hr Hs|rs e Hr Hd'];
    try congruence; try done.
  unfold sendStop in Hs. destruct (decide (r_stop rs < 1)%nat); [|done].
  destruct (stopPolicy_returns (st rs)) as (s' & Hpol & Hcfg & _).
  rewrite Hpol in Hs. simplify_eq. unfold zero_inv. simpl.
  by rewrite Hcfg.
Qed.

(** C1, as the code has it: with [c == 0] the division
    [b.config.n / b.config.c] that opens [runConstConcurrencyWorkers] runs
    before the [c == 0] guard, so the function panics with an integer
    division by zero instead of returning nil.  In [Run], the goroutine
    started for the pool can only crash the process, and no state in which
    [Run] has returned is ever reached. *)
Theorem runConstConcurrencyWorkers_zero_concurrency (s : St) :
  c (config (b s)) = 0 →
  runConstConcurrencyWorkers s = Panic "runtime error: integer divide by zero"
  ∧ (launches (config (b s)) = true →
     (∀ ev rs', run_step (Run_loop s) ev rs' →
        (∃ reason, ev = EvStopRequest reason)
        ∨ rs' = crash "runtime error: integer divide by zero" (Run_loop s))
     ∧ (∀ rs, rtc run_next (Run_loop s) rs →
          ∀ reason res, rpc rs ≠ Finished reason res)).
Proof.
  intros Hc. pose proof (go_div_zero s Hc) as Hp.
  split; [exact Hp|].
  intros Hl. split.
  - intros ev rs' Hstep.
    inversion Hstep; subst; simpl in *;
      try (rewrite Hl in *; discriminate);
      try congruence.
    + right. f_equal. congruence.
    + left. eauto.
  - intros rs Hreach.
    apply (run_steps_inv zero_inv _ _ run_step_zero_inv Hreach).
    unfold zero_inv, Run_loop. simpl. by rewrite Hl.
Qed.

Lemma runConstConcurrencyWorkers_zero_concurrency_witness :
  c (config (b (freshState (sampleConfig 10 0 1 "close") []))) = 0
  ∧ runConstConcurrencyWorkers (freshState (sampleConfig 10 0 1 "close") [])
    = Panic "runtime error: integer divide by zero".
Proof.
  split; [reflexivity|].
  apply (runConstConcurrencyWorkers_zero_concurrency
           (freshState (sampleConfig 10 0 1 "close") [])).
  reflexivity.
Defined.

(** ** Construction *)

Lemma newClientConn_false s :
  ∃ opts,
    (∀ h, WithStatsHandler h ∉ opts)
    ∧ newClientConn false s =
      match dialResult (world s) (dials (world s)) with
      | None =>
          Returns (Val {| conn_id := dials (world s); conn_opts := opts |})
            {| b := b s;
               world := {| dialResult := dialResult (world s);
                           dials := S (dials (world s));
                           events := events (world s) ++ [Dialed (dials (world s)) opts] |} |}
      | Some e =>
          Returns (Fail e)
            {| b := b s;
               world := {| dialResult := dialResult (world s);
                           dials := S (dials (world s));
                           events := events (world s)
                                     ++ [DialFailed (dials (world s)) opts] |} |}
      end.
Proof.
  unfold newClientConn, DialContext. munfold. simpl.
  eexists. split.
  2:{ destruct (dialResult (world s) (dials (world s))); reflexivity. }
  intros h.
  destruct (insecure (config (b s))),
           (decide (authority (config (b s)) ≠ EmptyString)),
           (0 <? keepaliveTime (config (b s))); simpl;
    rewrite ?elem_of_app, ?elem_of_cons, ?elem_of_nil; intuition discriminate.
Qed.

Section ConstructionProperties.

Variable GetMethodDescFromProto :
  string → string → list string → goresult MethodDescriptor.
Variable GetMethodDescFromProtoSet : string → string → goresult MethodDescriptor.
Variable GetMethodDescFromReflect :
  string → ClientConn → Z → list (string * string) → goresult MethodDescriptor.
Variable NewMessage : MethodDescriptor → bool.
Variable JSONObject : Type.
Variable json_Unmarshal : string → goresult (list JSONObject).
Variable json_Marshal : JSONObject → goresult string.

Local Abbreviation marshalLoop := (marshalLoop JSONObject json_Marshal).
Local Abbreviation fillIn := (fillIn NewMessage JSONObject json_Unmarshal json_Marshal).
Local Abbreviation resolveAndFill :=
  (resolveAndFill GetMethodDescFromProto GetMethodDescFromProtoSet
     GetMethodDescFromReflect NewMessage JSONObject json_Unmarshal json_Marshal).
Local Abbreviation newRequester :=
  (newRequester GetMethodDescFromProto GetMethodDescFromProtoSet
     GetMethodDescFromReflect NewMessage JSONObject json_Unmarshal json_Marshal).
Local Abbreviation resolution :=
  (resolution GetMethodDescFromProto GetMethodDescFromProtoSet
     GetMethodDescFromReflect).

Lemma marshalLoop_returns dat : ∀ i s,
  ∃ r s', marshalLoop dat i s = Returns r s'
        ∧ same_pool s s' ∧ mtd (b s') = mtd (b s).
Proof.
  induction dat as [|d dat IH]; intros i s; simpl.
  - exists (Val ()), s. by repeat split.
  - destruct (json_Marshal d) as [strd|e].
    + munfold.
      match goal with |- context [marshalLoop dat (S i) ?s1] =>
        destruct (IH (S i) s1) as (r & s' & Hr & (Hw & Hc & Hh & Hs & Hcfg) & Hm)
      end.
      exists r, s'. by repeat split.
    + exists (Fail e), s. by repeat split.
Qed.

(** When every element can be encoded, the loop fills the entries from
    [i] on with the encodings, in order. *)
Lemma marshalLoop_table dat : ∀ i s table,
  arrayJSONData (b s) = Some table →
  (i + length dat ≤ length table)%nat →
  (∀ d, d ∈ dat → ∃ strd, json_Marshal d = Val strd) →
  ∃ s' table',
    marshalLoop dat i s = Returns (Val ()) s'
    ∧ arrayJSONData (b s') = Some table'
    ∧ length table' = length table
    ∧ (∀ j, (j < i)%nat → table' !! j = table !! j)
    ∧ (∀ j d, dat !! j = Some d →
         ∃ strd, json_Marshal d = Val strd ∧ table' !! (i + j)%nat = Some strd).
Proof.
  induction dat as [|d dat IH]; intros i s table Ht Hlen Hok; simpl.
  - exists s, table. by repeat split.
  - destruct (Hok d) as [strd Hd]; [by left|]. rewrite Hd. munfold.
    match goal with |- context [marshalLoop dat (S i) ?s1] =>
      destruct (IH (S i) s1 (<[i:=strd]> table))
        as (s' & table' & Hr & Ht' & Hl' & Hlow & Hhigh)
    end.
    + simpl. by rewrite Ht.
    + rewrite length_insert. simpl in Hlen. lia.
    + intros d' Hd'. apply Hok. by right.
    + exists s', table'. rewrite Hr, Ht', Hl', length_insert.
      repeat split; try done.
      * intros j Hj. rewrite Hlow by lia. apply list_lookup_insert_ne. lia.
      * intros [|j] d' Hj; simpl in Hj.
        { injection Hj as <-. exists strd. split; [done|].
          rewrite Nat.add_0_r, Hlow by lia.
          apply list_lookup_insert_eq. simpl in Hlen. lia. }
        destruct (Hhigh j d' Hj) as (str' & Hm & Hl).
        exists str'. split; [done|]. by rewrite <- Hl, Nat.add_succ_r.
Qed.

Lemma fillIn_returns res s :
  ∃ r s', fillIn res s = Returns r s' ∧ same_pool s s' ∧ follows NewMessage res r s'.
Proof.
  unfold fillIn, follows. destruct res as [m|e].
  2:{ exists (Fail e), s. repeat split; try done. by intros e0 [= ->]. }
  destruct (NewMessage m) eqn:Hnew.
  2:{ eexists _, s. split; [reflexivity|]. repeat split; done. }
  munfold. simpl.
  assert (Hskip : ∀ s1 : St,
            same_pool s s1 → mtd (b s1) = Some m →
            same_pool s s1
            ∧ (∀ e, Val m = Fail e → Val () = Fail e)
            ∧ (Val () = Val () →
               ∃ m0, Val m = Val m0 ∧ NewMessage m0 = true ∧ mtd (b s1) = Some m0)).
  { intros s1 Hs1 Hm1. split; [done|]. split; [done|]. intros _. by exists m. }
  destruct (negb (binary (config (b s))) && negb (IsClientStreaming m)).
  2:{ eexists _, _. split; [reflexivity|]. by apply Hskip. }
  destruct (decide (IndexRune (data (config (b s))) "[" = 0)) as [Hroot|Hroot].
  2:{ eexists _, _. split; [reflexivity|]. by apply Hskip. }
  destruct (json_Unmarshal (data (config (b s)))) as [dat|err].
  2:{ eexists _, _. split; [reflexivity|]. repeat split; done. }
  match goal with |- context [marshalLoop dat 0 ?s1] =>
    destruct (marshalLoop_returns dat 0 s1) as (r & s' & Hr & (Hw & Hc & Hh & Hs & Hcfg) & Hm)
  end.
  exists r, s'. split; [exact Hr|]. simpl in *.
  repeat split; try done. intros _. exists m. by rewrite Hm.
Qed.

(** The payload table that the end of construction computes for the
    descriptor [m]. *)
Lemma fillIn_table m s :
  NewMessage m = true →
  (binary (config (b s)) = false →
   IsClientStreaming m = false →
   IndexRune (data (config (b s))) "[" = 0 →
   ∀ dat,
     json_Unmarshal (data (config (b s))) = Val dat →
     (∀ d, d ∈ dat → ∃ strd, json_Marshal d = Val strd) →
     ∃ s' table,
       fillIn (Val m) s = Returns (Val ()) s'
       ∧ arrayJSONData (b s') = Some table
       ∧ length table = length dat
       ∧ ∀ i d, dat !! i = Some d →
           ∃ strd, json_Marshal d = Val strd ∧ table !! i = Some strd)
  ∧ (binary (config (b s)) = true ∨ IsClientStreaming m = true
     ∨ IndexRune (data (config (b s))) "[" ≠ 0 →
     ∃ s', fillIn (Val m) s = Returns (Val ()) s' ∧ arrayJSONData (b s') = None).
Proof.
  intros Hnew. unfold fillIn. rewrite Hnew. munfold. simpl. split.
  - intros -> -> Hroot dat Hdat Hok. simpl.
    rewrite decide_True by done. rewrite Hdat.
    match goal with |- context [marshalLoop dat 0 ?s1] =>
      destruct (marshalLoop_table dat 0 s1 (replicate (length dat) EmptyString))
        as (s' & table & Hr & Ht & Hl & _ & Hentries)
    end; try done.
    { rewrite length_replicate. lia. }
    exists s', table. rewrite length_replicate in Hl. by repeat split.
  - intros Hcase.
    destruct (negb (binary (config (b s))) && negb (IsClientStreaming m)) eqn:Hb.
    2:{ eexists. split; reflexivity. }
    apply andb_prop in Hb as [Hb1%negb_true_iff Hb2%negb_true_iff].
    destruct Hcase as [?|[?|Hroot]]; try congruence.
    rewrite decide_False by done. eexists. split; reflexivity.
Qed.

(** Construction consults one source, [resolution], and ends as [fillIn]
    does on its answer. *)
Lemma resolveAndFill_spec s :
  ∃ s1 r s2 s',
    b s1 = b s
    ∧ fillIn (resolution s) s1 = Returns r s2
    ∧ resolveAndFill s = Returns r s'
    ∧ b s' = b s2.
Proof.
  unfold resolveAndFill, resolution. munfold.
  destruct (decide (proto (config (b s)) ≠ EmptyString)).
  { destruct (fillIn_returns (GetMethodDescFromProto (call (config (b s)))
                (proto (config (b s))) (importPaths (config (b s)))) s)
      as (r & s' & Hr & _).
    by exists s, r, s', s'. }
  destruct (decide (protoset (config (b s)) ≠ EmptyString)).
  { destruct (fillIn_returns (GetMethodDescFromProtoSet (call (config (b s)))
                (protoset (config (b s)))) s) as (r & s' & Hr & _).
    by exists s, r, s', s'. }
  destruct (newClientConn_false s) as (opts & _ & Hn). rewrite Hn.
  destruct (dialResult (world s) (dials (world s))) as [e|].
  - exists s, (Fail e). eexists _, _. repeat split; done.
  - match goal with |- context [fillIn ?res ?s1] =>
      destruct (fillIn_returns res s1) as (r & s' & Hr & _)
    end.
    eexists _, r, s', _. rewrite Hr. unfold Close. repeat split; done.
Qed.

(** *** C8 *)

(** C8: construction asks exactly one descriptor source: the proto file
    when [proto] is set; else the protoset file when [protoset] is set;
    else reflection over a connection dialed without stats handler, which
    is closed when construction returns and is not in the pool.  In each
    case no other dial is made, the pool and the taps stay empty, an
    error of the source is the error of construction, and a Requester is
    returned only with the descriptor the source answered. *)
Theorem descriptor_resolution_priority (cfg : RunConfig) (w : World) :
  0 ≤ min (wrap64 (c cfg * 1000)) maxResult →
  0 ≤ nConns cfg →
  ∃ r s',
    newRequester cfg w = Returns r s'
    ∧ conns (b s') = Some [] ∧ handlers (b s') = [] ∧ stubs (b s') = []
    ∧ (proto cfg ≠ EmptyString →
       world s' = w
       ∧ follows NewMessage (GetMethodDescFromProto (call cfg) (proto cfg) (importPaths cfg)) r s')
    ∧ (proto cfg = EmptyString → protoset cfg ≠ EmptyString →
       world s' = w
       ∧ follows NewMessage (GetMethodDescFromProtoSet (call cfg) (protoset cfg)) r s')
    ∧ (proto cfg = EmptyString → protoset cfg = EmptyString →
       ∃ opts,
         (∀ h, WithStatsHandler h ∉ opts)
         ∧ dials (world s') = S (dials w)
         ∧ match dialResult w (dials w) with
           | Some e =>
               r = Fail e
               ∧ events (world s') = events w ++ [DialFailed (dials w) opts]
           | None =>
               events (world s')
               = events w ++ [Dialed (dials w) opts; Closed (dials w)]
               ∧ follows NewMessage
                   (GetMethodDescFromReflect (call cfg)
                      {| conn_id := dials w; conn_opts := opts |}
                      (dialTimeout cfg) (rmd cfg)) r s'
           end).
Proof.
  intros Hsize Hconns.
  unfold newRequester. rewrite !decide_False by lia.
  unfold resolveAndFill. munfold. simpl.
  destruct (decide (proto cfg ≠ EmptyString)) as [Hp|Hp].
  { destruct (fillIn_returns (GetMethodDescFromProto (call cfg) (proto cfg)
                (importPaths cfg)) {| b := freshRequester cfg; world := w |})
      as (r & s' & Hr & (Hw & Hc & Hh & Hs & _) & Hf).
    simpl in *. exists r, s'. rewrite Hc, Hh, Hs.
    do 4 (split; [done|]). split; [done|]. split; intros; congruence. }
  apply dec_stable in Hp.
  destruct (decide (protoset cfg ≠ EmptyString)) as [Hps|Hps].
  { destruct (fillIn_returns (GetMethodDescFromProtoSet (call cfg) (protoset cfg))
                {| b := freshRequester cfg; world := w |})
      as (r & s' & Hr & (Hw & Hc & Hh & Hs & _) & Hf).
    simpl in *. exists r, s'. rewrite Hc, Hh, Hs.
    do 4 (split; [done|]). split; [intros; congruence|].
    split; [done|]. intros; congruence. }
  apply dec_stable in Hps.
  destruct (newClientConn_false {| b := freshRequester cfg; world := w |})
    as (opts & Hopts & Hn).
  rewrite Hn. simpl.
  destruct (dialResult w (dials w)) as [e|] eqn:Hdial.
  - eexists _, _. split; [reflexivity|]. simpl.
    do 3 (split; [done|]). split; [intros; congruence|].
    split; [intros; congruence|].
    intros _ _. exists opts. by repeat split.
  - match goal with |- context [fillIn ?res ?s1] =>
      destruct (fillIn_returns res s1) as (r & s' & Hr & (Hw & Hc & Hh & Hs & _) & Hf)
    end.
    rewrite Hr. unfold Close. eexists _, _. split; [reflexivity|]. simpl in *.
    rewrite Hc, Hh, Hs, Hw. simpl.
    do 3 (split; [done|]). split; [intros; congruence|].
    split; [intros; congruence|].
    intros _ _. exists opts. split; [done|]. split; [done|].
    split; [by rewrite <- app_assoc|done].
Qed.

(** *** C9 *)

(** C9: for the descriptor [m] that construction resolved, when the
    payload is not binary, [m] is not client-streaming, the payload text
    starts with '[' and decodes as a list [dat] of objects that can all
    be encoded again, construction returns a Requester whose table has
    the length of [dat] and holds at [i] the encoding of the [i]-th
    object, and the call with counter value [k] takes the entry at
    [k mod] the length of the table; when the payload is binary, or [m]
    is client-streaming, or the text does not start with '[', the table
    is nil. *)
Theorem array_payload_table (cfg : RunConfig) (w : World) (m : MethodDescriptor) :
  0 ≤ min (wrap64 (c cfg * 1000)) maxResult →
  0 ≤ nConns cfg →
  resolution {| b := freshRequester cfg; world := w |} = Val m →
  NewMessage m = true →
  (binary cfg = false →
   IsClientStreaming m = false →
   IndexRune (data cfg) "[" = 0 →
   ∀ dat,
     json_Unmarshal (data cfg) = Val dat →
     (∀ d, d ∈ dat → ∃ strd, json_Marshal d = Val strd) →
     ∃ s' table,
       newRequester cfg w = Returns (Val ()) s'
       ∧ arrayJSONData (b s') = Some table
       ∧ length table = length dat
       ∧ (∀ i d, dat !! i = Some d →
            ∃ strd, json_Marshal d = Val strd ∧ table !! i = Some strd)
       ∧ (∀ k, 0 ≤ k → dat ≠ [] →
            ∃ strd,
              selectPayload table k = Some strd
              ∧ table !! Z.to_nat (k mod Z.of_nat (length table)) = Some strd))
  ∧ (binary cfg = true ∨ IsClientStreaming m = true
     ∨ IndexRune (data cfg) "[" ≠ 0 →
     ∃ s', newRequester cfg w = Returns (Val ()) s' ∧ arrayJSONData (b s') = None).
Proof.
  intros Hsize Hconns Hres Hnew.
  set (s0 := {| b := freshRequester cfg; world := w |}) in *.
  destruct (resolveAndFill_spec s0) as (s1 & r & s2 & s' & Hb1 & Hfill & Hrun & Hb').
  rewrite Hres in Hfill.
  assert (Hnewreq : newRequester cfg w = Returns r s').
  { unfold newRequester. by rewrite !decide_False by lia. }
  destruct (fillIn_table m s1 Hnew) as [Harr Hnil].
  rewrite Hb1 in Harr, Hnil. change (config (b s0)) with cfg in *.
  split.
  - intros Hbin Hstr Hroot dat Hdat Hok.
    destruct (Harr Hbin Hstr Hroot dat Hdat Hok) as (s3 & table & Hf & Ht & Hl & He).
    rewrite Hf in Hfill. injection Hfill as <- <-.
    exists s', table. rewrite Hb'. repeat split; try done.
    intros k Hk Hne.
    assert (Hpos : 0 < Z.of_nat (length table)).
    { rewrite Hl. destruct dat; [done|simpl; lia]. }
    unfold selectPayload. rewrite Z.rem_mod_nonneg by lia.
    pose proof (Z.mod_pos_bound k (Z.of_nat (length table)) Hpos) as Hb.
    destruct (table !! Z.to_nat (k mod Z.of_nat (length table))) as [strd|] eqn:Hlk.
    + by exists strd.
    + apply lookup_ge_None in Hlk. lia.
  - intros Hcase. destruct (Hnil Hcase) as (s3 & Hf & Ht).
    rewrite Hf in Hfill. injection Hfill as <- <-.
    exists s'. by rewrite Hb'.
Qed.

End ConstructionProperties.

(** ** Construction on a sample input *)

Lemma descriptor_resolution_priority_witness :
  ∃ r s',
    sampleNewRequester arrayConfig (network []) = Returns r s'
    ∧ conns (b s') = Some [] ∧ handlers (b s') = [] ∧ stubs (b s') = []
    ∧ world s' = network []
    ∧ follows (λ _, true) (sampleFromProto (call arrayConfig) (proto arrayConfig)
                 (importPaths arrayConfig)) r s'.
Proof.
  destruct (descriptor_resolution_priority
              sampleFromProto sampleFromProtoSet sampleFromReflect (λ _, true)
              (list (string * string)) sampleUnmarshal sampleMarshal
              arrayConfig (network []))
    as (r & s' & Hr & Hc & Hh & Hs & Hproto & _).
  - vm_compute. discriminate.
  - vm_compute. discriminate.
  - exists r, s'. destruct Hproto as [Hw Hf]; [discriminate|].
    repeat split; try done; apply Hf.
Defined.

Lemma array_payload_table_witness :
  ∃ s' table,
    sampleNewRequester arrayConfig (network []) = Returns (Val ()) s'
    ∧ arrayJSONData (b s') = Some table
    ∧ length table = 2%nat
    ∧ table !! 0%nat = Some "{}"
    ∧ table !! 1%nat = Some "{}"
    ∧ selectPayload table 5 = table !! 1%nat.
Proof.
  destruct (array_payload_table
              sampleFromProto sampleFromProtoSet sampleFromReflect (λ _, true)
              (list (string * string)) sampleUnmarshal sampleMarshal
              arrayConfig (network []) sayHello) as [Harr _].
  - vm_compute. discriminate.
  - vm_compute. discriminate.
  - reflexivity.
  - reflexivity.
  - destruct (Harr eq_refl eq_refl eq_refl [[]; []] eq_refl)
      as (s' & table & Hrun & Ht & Hl & He & Hsel).
    + intros d Hd. exists "{}".
      apply elem_of_cons in Hd as [->|Hd]; [done|].
      apply elem_of_cons in Hd as [->|Hd]; [done|]. by apply elem_of_nil in Hd.
    + exists s', table. split; [exact Hrun|]. split; [exact Ht|]. split; [exact Hl|].
      destruct (He 0%nat [] eq_refl) as (s0 & Hm0 & H0).
      destruct (He 1%nat [] eq_refl) as (s1 & Hm1 & H1).
      injection Hm0 as <-. injection Hm1 as <-.
      split; [exact H0|]. split; [exact H1|].
      destruct (Hsel 5 ltac:(lia) ltac:(discriminate)) as (strd & Hs & Hk).
      rewrite Hs, <- Hk, Hl. reflexivity.
Defined.

(** * Further properties *)

(** ** Dialing *)

Lemma newClientConn_options flag s :
  newClientConn flag s
  = let opts := dialOptions (config (b s))
                  (if flag then Some (length (handlers (b s))) else None) in
    let b' := if flag then set_handlers (handlers (b s) ++ [tap (b s)]) (b s) else b s in
    match dialResult (world s) (dials (world s)) with
    | None =>
        Returns (Val {| conn_id := dials (world s); conn_opts := opts |})
          {| b := b';
             world := {| dialResult := dialResult (world s);
                         dials := S (dials (world s));
                         events := events (world s) ++ [Dialed (dials (world s)) opts] |} |}
    | Some e =>
        Returns (Fail e)
          {| b := b';
             world := {| dialResult := dialResult (world s);
                         dials := S (dials (world s));
                         events := events (world s)
                                   ++ [DialFailed (dials (world s)) opts] |} |}
    end.
Proof.
  unfold newClientConn, DialContext, dialOptions. munfold. simpl.
  destruct flag, (insecure (config (b s))),
    (decide (authority (config (b s)) ≠ EmptyString)),
    (0 <? keepaliveTime (config (b s))); simpl;
    destruct (dialResult (world s) (dials (world s))); reflexivity.
Qed.

Lemma dialOptions_shape cfg handler :
  dialOptions cfg handler
  = (if insecure cfg then WithInsecure else WithTransportCredentials (creds cfg))
    :: ((if decide (authority cfg ≠ EmptyString) then [WithAuthority (authority cfg)] else [])
        ++ (if 0 <? keepaliveTime cfg
            then [WithKeepaliveParams (keepaliveTime cfg) (keepaliveTime cfg)] else [])
        ++ (match handler with Some k => [WithStatsHandler k] | None => [] end))
       ++ [WithDefaultCallOptions MaxInt32 MaxInt32].
Proof. unfold dialOptions. simpl. by rewrite <- !app_assoc. Qed.

Lemma elem_of_dialOptions cfg handler x :
  x ∈ dialOptions cfg handler
  ↔ x = (if insecure cfg then WithInsecure else WithTransportCredentials (creds cfg))
    ∨ (authority cfg ≠ EmptyString ∧ x = WithAuthority (authority cfg))
    ∨ (0 < keepaliveTime cfg
       ∧ x = WithKeepaliveParams (keepaliveTime cfg) (keepaliveTime cfg))
    ∨ (∃ k, handler = Some k ∧ x = WithStatsHandler k)
    ∨ x = WithDefaultCallOptions MaxInt32 MaxInt32.
Proof.
  unfold dialOptions. rewrite !elem_of_app, !list_elem_of_singleton.
  assert (Ha : x ∈ (if decide (authority cfg ≠ EmptyString)
                    then [WithAuthority (authority cfg)] else [])
               ↔ authority cfg ≠ EmptyString ∧ x = WithAuthority (authority cfg)).
  { case_decide; rewrite ?list_elem_of_singleton, ?elem_of_nil; tauto. }
  assert (Hk : x ∈ (if 0 <? keepaliveTime cfg
                    then [WithKeepaliveParams (keepaliveTime cfg) (keepaliveTime cfg)]
                    else [])
               ↔ 0 < keepaliveTime cfg
                 ∧ x = WithKeepaliveParams (keepaliveTime cfg) (keepaliveTime cfg)).
  { destruct (0 <? keepaliveTime cfg) eqn:E;
      [apply Z.ltb_lt in E | apply Z.ltb_ge in E];
      rewrite ?list_elem_of_singleton, ?elem_of_nil; intuition lia. }
  assert (Hh : x ∈ (match handler with Some k => [WithStatsHandler k] | None => [] end)
               ↔ ∃ k, handler = Some k ∧ x = WithStatsHandler k).
  { destruct handler as [k|]; rewrite ?list_elem_of_singleton, ?elem_of_nil.
    - split; [intros ->; eauto|]. by intros (k' & [= ->] & ->).
    - split; [done|]. by intros (k' & [=] & _). }
  rewrite Ha, Hk, Hh. tauto.
Qed.

(** The shape of the options of every connection the Requester dials: one
    security option first, the message size limits last, the keepalive
    ping interval also used as its timeout and present only when positive,
    the authority only when set, and a stats handler only when asked for,
    which then is the tap registered last. *)
Theorem dialed_connection_options (flag : bool) (s s' : St) (cc : ClientConn) :
  newClientConn flag s = Returns (Val cc) s' →
  conn_id cc = dials (world s)
  ∧ (∃ mid,
       conn_opts cc
       = (if insecure (config (b s)) then WithInsecure
          else WithTransportCredentials (creds (config (b s))))
         :: mid ++ [WithDefaultCallOptions MaxInt32 MaxInt32])
  ∧ (∀ t u, WithKeepaliveParams t u ∈ conn_opts cc
            ↔ (0 < keepaliveTime (config (b s))
               ∧ t = keepaliveTime (config (b s)) ∧ u = t))
  ∧ (∀ a, WithAuthority a ∈ conn_opts cc
          ↔ (a = authority (config (b s)) ∧ a ≠ EmptyString))
  ∧ (∀ h, WithStatsHandler h ∈ conn_opts cc
          ↔ (flag = true ∧ h = length (handlers (b s))
             ∧ handlers (b s') !! h = Some {| id := h; ignore := false |})).
Proof.
  rewrite newClientConn_options. simpl.
  destruct (dialResult (world s) (dials (world s))) as [e|]; [done|].
  intros [= <- <-]. simpl. split; [done|].
  split; [rewrite dialOptions_shape; by eexists|].
  split; [|split].
  - intros t u. rewrite elem_of_dialOptions.
    destruct (insecure (config (b s))); split.
    + intros [?|[[_ ?]|[[? ?]|[(k & _ & ?)|?]]]]; simplify_eq; done.
    + intros (? & -> & ->). right. right. left. done.
    + intros [?|[[_ ?]|[[? ?]|[(k & _ & ?)|?]]]]; simplify_eq; done.
    + intros (? & -> & ->). right. right. left. done.
  - intros a. rewrite elem_of_dialOptions.
    destruct (insecure (config (b s))); split.
    + intros [?|[[? ?]|[[_ ?]|[(k & _ & ?)|?]]]]; simplify_eq; done.
    + intros (-> & ?). right. left. done.
    + intros [?|[[? ?]|[[_ ?]|[(k & _ & ?)|?]]]]; simplify_eq; done.
    + intros (-> & ?). right. left. done.
  - intros h. rewrite elem_of_dialOptions.
    assert (Hk : (∃ k, (if flag then Some (length (handlers (b s))) else None)
                       = Some k ∧ WithStatsHandler h = WithStatsHandler k)
                 ↔ (flag = true ∧ h = length (handlers (b s)))).
    { destruct flag; split.
      - by intros (k & [= <-] & [= ->]).
      - intros [_ ->]. eauto.
      - by intros (k & [=] & _).
      - by intros [[=] _]. }
    split.
    + intros Hin.
      assert (Hf : flag = true ∧ h = length (handlers (b s))).
      { apply Hk. destruct (insecure (config (b s)));
          destruct Hin as [?|[[_ ?]|[[_ ?]|[?|?]]]]; simplify_eq; done. }
      destruct Hf as [-> ->]. split; [done|]. split; [done|]. simpl.
      rewrite lookup_app_r by lia. by rewrite Nat.sub_diag.
    + intros (Hf & Hh & _). right. right. right. left. apply Hk. done.
Qed.


Lemma dialed_connection_options_witness :
  ∃ cc s',
    newClientConn true (freshState tunedConfig []) = Returns (Val cc) s'
    ∧ conn_id cc = 0%nat
    ∧ (∀ t u, WithKeepaliveParams t u ∈ conn_opts cc ↔ (0 < 30 ∧ t = 30 ∧ u = t))
    ∧ (∀ h, WithStatsHandler h ∈ conn_opts cc
            ↔ (true = true ∧ h = 0%nat
               ∧ handlers (b s') !! h = Some {| id := h; ignore := false |})).
Proof.
  eexists _, _. split; [vm_compute; reflexivity|].
  match goal with
  | |- context [handlers (b ?s1) !! _] =>
      destruct (dialed_connection_options true (freshState tunedConfig []) s1
                  {| conn_id := 0;
                     conn_opts := dialOptions tunedConfig (Some 0%nat) |})
        as (Hid & _ & Hk & _ & Hh)
  end.
  - vm_compute. reflexivity.
  - split; [exact Hid|]. split; [exact Hk|exact Hh].
Defined.

(** ** Opening the pool *)

Lemma dialedConn_next s opts j :
  dialedConn
    {| b := set_conns (sappend (conns (b (after_dial (Dialed (dials (world s)) opts) s)))
                         {| conn_id := dials (world s); conn_opts := opts |})
              (b (after_dial (Dialed (dials (world s)) opts) s));
       world := world (after_dial (Dialed (dials (world s)) opts) s) |} j
  = dialedConn s (S j).
Proof.
  unfold dialedConn. simpl. rewrite length_app. simpl. f_equal; [lia|].
  do 2 f_equal. lia.
Qed.

Lemma dialedTap_next s opts j :
  dialedTap
    {| b := set_conns (sappend (conns (b (after_dial (Dialed (dials (world s)) opts) s)))
                         {| conn_id := dials (world s); conn_opts := opts |})
              (b (after_dial (Dialed (dials (world s)) opts) s));
       world := world (after_dial (Dialed (dials (world s)) opts) s) |} j
  = dialedTap s (S j).
Proof. unfold dialedTap. simpl. rewrite length_app. simpl. f_equal. lia. Qed.

Lemma fmap_seq_next {A} (f g : nat → A) k :
  (∀ j, g j = f (S j)) → f <$> seq 0 (S k) = f 0%nat :: (g <$> seq 0 k).
Proof.
  intros Hg. simpl. f_equal. rewrite <- fmap_S_seq, <- list_fmap_compose.
  apply list_fmap_ext. intros i x _. simpl. by rewrite Hg.
Qed.

(** A [dialLoop] whose dials all succeed, in full. *)
Lemma dialLoop_exact k : ∀ s,
  (∀ i, (i < k)%nat → dialResult (world s) (dials (world s) + i)%nat = None) →
  ∃ s', dialLoop k s = Returns (Val (conns (b s'))) s'
      ∧ selems (conns (b s')) = selems (conns (b s)) ++ (dialedConn s <$> seq 0 k)
      ∧ handlers (b s') = handlers (b s) ++ (dialedTap s <$> seq 0 k)
      ∧ dials (world s') = (dials (world s) + k)%nat
      ∧ closed_conns (world s') = closed_conns (world s)
      ∧ stubs (b s') = stubs (b s)
      ∧ config (b s') = config (b s).
Proof.
  induction k as [|k IH]; intros s Hok.
  - exists s. simpl. rewrite !app_nil_r. repeat split; try done; lia.
  - pose proof (newClientConn_options true s) as Hn. simpl in Hn.
    pose proof (Hok 0%nat ltac:(lia)) as H0. rewrite Nat.add_0_r in H0.
    rewrite H0 in Hn.
    set (opts := dialOptions (config (b s)) (Some (length (handlers (b s))))) in *.
    set (s1 := {| b := set_conns (sappend (conns (b (after_dial (Dialed (dials (world s)) opts) s)))
                                   {| conn_id := dials (world s); conn_opts := opts |})
                          (b (after_dial (Dialed (dials (world s)) opts) s));
                  world := world (after_dial (Dialed (dials (world s)) opts) s) |}).
    destruct (IH s1) as (s' & Hrun & Hc & Hh & Hd & Hcl & Hst & Hcfg).
    { intros i Hi. simpl. rewrite <- (Hok (S i)) by lia. f_equal. lia. }
    exists s'. split.
    { simpl. rewrite (bind_returns _ _ _ _ _ Hn). simpl. munfold. exact Hrun. }
    rewrite Hc, Hh, Hd, Hcl, Hst, Hcfg.
    rewrite (fmap_seq_next (dialedConn s) (dialedConn s1) k (dialedConn_next s opts)).
    rewrite (fmap_seq_next (dialedTap s) (dialedTap s1) k (dialedTap_next s opts)).
    simpl. rewrite <- !app_assoc. simpl.
    assert (Hc0 : dialedConn s 0 = {| conn_id := dials (world s); conn_opts := opts |}).
    { unfold dialedConn, opts. by rewrite !Nat.add_0_r. }
    assert (Ht0 : dialedTap s 0 = tap (b s)).
    { unfold dialedTap, tap. by rewrite Nat.add_0_r. }
    rewrite Hc0, Ht0. repeat split; try done; try lia.
    by apply closed_conns_snoc_dial.
Qed.

(** Opening an empty or cleared pool when every dial succeeds: exactly
    [nConns] dials are made, the pool holds their connections in dial
    order, and the [j]-th of them carries the stats handler of the [j]-th
    tap registered by this open, which does not ignore results. *)
Theorem open_empty_pool (s : St) :
  selems (conns (b s)) = [] →
  1 ≤ nConns (config (b s)) →
  (∀ i, (i < Z.to_nat (nConns (config (b s))))%nat →
        dialResult (world s) (dials (world s) + i)%nat = None) →
  ∃ s', openClientConns s = Returns (Val (conns (b s'))) s'
      ∧ slen (conns (b s')) = nConns (config (b s))
      ∧ dials (world s') = (dials (world s) + Z.to_nat (nConns (config (b s))))%nat
      ∧ length (handlers (b s'))
        = (length (handlers (b s)) + Z.to_nat (nConns (config (b s))))%nat
      ∧ closed_conns (world s') = closed_conns (world s)
      ∧ ∀ j cc, selems (conns (b s')) !! j = Some cc →
          conn_id cc = (dials (world s) + j)%nat
          ∧ (∀ h, WithStatsHandler h ∈ conn_opts cc
                  ↔ h = (length (handlers (b s)) + j)%nat)
          ∧ handlers (b s') !! (length (handlers (b s)) + j)%nat
            = Some {| id := (length (handlers (b s)) + j)%nat; ignore := false |}.
Proof.
  intros Hempty HN Hok.
  destruct (dialLoop_exact _ s Hok) as (s' & Hrun & Hc & Hh & Hd & Hcl & _ & _).
  rewrite Hempty in Hc. simpl in Hc.
  exists s'. split.
  { unfold openClientConns. munfold. rewrite decide_False; [done|].
    rewrite slen_selems, Hempty. simpl. lia. }
  rewrite slen_selems, Hc, Hh, length_fmap, length_app, length_fmap, !length_seq.
  repeat split; try done; try lia.
  - apply list_lookup_fmap_Some in H as (i & -> & Hi).
    apply lookup_seq in Hi as [-> _]. done.
  - apply list_lookup_fmap_Some in H as (i & -> & Hi).
    apply lookup_seq in Hi as [-> _]. unfold dialedConn. simpl.
    rewrite elem_of_dialOptions.
    destruct (insecure (config (b s)));
      intros [?|[[_ ?]|[[_ ?]|[(k & [= <-] & [= ->])|?]]]]; simplify_eq; done.
  - intros ->. apply list_lookup_fmap_Some in H as (i & -> & Hi).
    apply lookup_seq in Hi as [-> _]. unfold dialedConn. simpl.
    rewrite elem_of_dialOptions. right. right. right. left. eauto.
  - apply list_lookup_fmap_Some in H as (i & -> & Hi).
    apply lookup_seq in Hi as [-> Hlt].
    rewrite lookup_app_r by lia.
    replace (length (handlers (b s)) + j - length (handlers (b s)))%nat with j by lia.
    rewrite list_lookup_fmap, lookup_seq_lt by done. done.
Qed.

Lemma open_empty_pool_witness :
  ∃ s', openClientConns (freshState tunedConfig []) = Returns (Val (conns (b s'))) s'
      ∧ slen (conns (b s')) = 3
      ∧ dials (world s') = 3%nat
      ∧ length (handlers (b s')) = 3%nat.
Proof.
  destruct (open_empty_pool (freshState tunedConfig []))
    as (s' & Hrun & Hlen & Hd & Hh & _).
  - reflexivity.
  - simpl. lia.
  - intros i _. reflexivity.
  - exists s'. repeat split; done.
Defined.
